(** * prsc: a tiny parser-combinator library, embedded in Rocq

    The development follows the TypeScript sources: the string-oriented
    combinators ([parser-combinators.ts]), the streaming combinators
    ([streaming.ts]) and the UTF-8 decoder of the byte-oriented variant
    ([utf8.ts]).

    Modelling decisions.
    - A JavaScript string is the list of its UTF-16 code units ([jsstring]).
    - Offsets are JavaScript numbers; the model covers the integers ([Z]),
      negative ones included, with the behaviour the string built-ins
      ([slice], [codePointAt]) have there.
    - A parser is a closure.  The only closure that owns mutable state is the
      one created by [or]: its body assigns to the captured parameter
      [expected].  Every [or] closure therefore owns a cell of a store, and
      parsers are store-passing functions.
    - A result object is created by every invocation ([okWithValue], [error]
      build object literals) and is not retained by the library, so results
      are plain values.
    - [while (true)] loops whose number of iterations is not bounded by the
      code itself ([star], [starConsumed], [streamingStar], [codepointsUtf8])
      take a fuel argument; a run that exhausts the fuel has no result
      ([None]).
    - The functions a caller passes ([isMatch], [map], [filter], [join]) are
      total functions without effects. *)

From Stdlib Require Import ZArith List String Ascii Bool Lia.
From stdpp Require Import base option list gmap.

Open Scope Z_scope.

(** ** Strings *)

Definition jsstring : Type := list Z.

(** The code units of an ASCII literal. *)
Definition str (s : string) : jsstring :=
  List.map (fun a => Z.of_nat (nat_of_ascii a)) (list_ascii_of_string s).

(** A well-formed string holds 16-bit code units. *)
Definition wf_string (s : jsstring) : Prop :=
  Forall (fun u => 0 <= u < 65536) s.

Definition strlen (s : jsstring) : Z := Z.of_nat (length s).

(** [s[i]] as a code unit: absent outside [0, length). *)
Definition charCodeAt (s : jsstring) (i : Z) : option Z :=
  if i <? 0 then None else s !! Z.to_nat i.

(** [String.prototype.slice], a built-in of ECMAScript, for integer indices:
    negative indices count from the end, indices are clamped to the string
    and an empty span gives the empty string. *)
Definition slice (s : jsstring) (start end_ : Z) : jsstring :=
  let len := strlen s in
  let from := if start <? 0 then Z.max (len + start) 0 else Z.min start len in
  let to := if end_ <? 0 then Z.max (len + end_) 0 else Z.min end_ len in
  take (Z.to_nat (to - from)) (drop (Z.to_nat from) s).

(** [String.prototype.codePointAt], a built-in of ECMAScript: [undefined]
    outside the string; a leading surrogate followed by a trailing surrogate
    is combined, any other unit is returned as it is. *)
Definition codePointAt (s : jsstring) (pos : Z) : option Z :=
  match charCodeAt s pos with
  | None => None
  | Some first =>
      if (first <? 0xD800) || (0xDBFF <? first) then Some first
      else match charCodeAt s (pos + 1) with
           | None => Some first
           | Some second =>
               if (second <? 0xDC00) || (0xDFFF <? second) then Some first
               else Some ((first - 0xD800) * 0x400 + (second - 0xDC00) + 0x10000)
           end
  end.

(** [String.fromCodePoint], a built-in of ECMAScript, for one code point;
    [None] stands for the [RangeError] it throws. *)
Definition fromCodePoint (cp : Z) : option jsstring :=
  if (cp <? 0) || (0x10FFFF <? cp) then None
  else if cp <=? 0xFFFF then Some [cp]
  else Some [ (cp - 0x10000) / 0x400 + 0xD800 ; (cp - 0x10000) mod 0x400 + 0xDC00 ].

(** ** Results *)

Inductive ParseResult (T : Type) : Type :=
| Success (offset : Z) (value : T)
| Failure (offset : Z) (expected : list jsstring) (fatal : bool).
Arguments Success {T} offset value.
Arguments Failure {T} offset expected fatal.

Definition offset_of {T} (r : ParseResult T) : Z :=
  match r with Success o _ => o | Failure o _ _ => o end.

Definition is_fatal {T} (r : ParseResult T) : bool :=
  match r with Success _ _ => false | Failure _ _ f => f end.

Definition okWithValue {T} (offset : Z) (value : T) : ParseResult T :=
  Success offset value.

Definition ok (offset : Z) : ParseResult unit := okWithValue offset tt.

(** [fatal] is an optional argument with default [false]. *)
Definition error {T} (offset : Z) (expected : list jsstring) (fatal : option bool)
  : ParseResult T := Failure offset expected (default false fatal).

(** [x === undefined] for an optional value. *)
Definition is_undefined {A} (x : option A) : bool :=
  match x with None => true | Some _ => false end.

(** ** The store of closure cells and the parser monad *)

Definition loc : Type := nat.

(** The cell of an [or] closure holds its captured [expected]: absent when
    it is [undefined]. *)
Abbreviation store := (gmap loc (list jsstring)).

Definition M (A : Type) : Type := store -> option (A * store).

Definition ret {A} (a : A) : M A := fun s => Some (a, s).

Definition bind {A B} (m : M A) (k : A -> M B) : M B :=
  fun s => match m s with
           | Some (a, s') => k a s'
           | None => None
           end.

Definition read (l : loc) : M (option (list jsstring)) :=
  fun s => Some (s !! l, s).

Definition write (l : loc) (e : list jsstring) : M unit :=
  fun s => Some (tt, <[l := e]> s).

Declare Scope parser_scope.
Delimit Scope parser_scope with parser.
Notation "'let*' x ':=' m 'in' k" := (bind m (fun x => k))
  (at level 10, x name, m at level 100, k at level 200) : parser_scope.
Open Scope parser_scope.

Definition Parser (T : Type) : Type := jsstring -> Z -> M (ParseResult T).

(** ** Primitive matchers *)

Definition token (tok : jsstring) : Parser jsstring :=
  fun input offset =>
    let offsetAfter := offset + strlen tok in
    if decide (slice input offset offsetAfter = tok)
    then ret (okWithValue offsetAfter tok)
    else ret (error offset [tok] None).

Definition lengthFromCodePoint (cp : Z) : Z := if cp >? 0xffff then 2 else 1.

Definition codepoint (isMatch : Z -> bool) (expected : list jsstring) : Parser unit :=
  fun input offset =>
    match codePointAt input offset with
    | None => ret (error offset expected None)
    | Some cp =>
        if negb (isMatch cp) then ret (error offset expected None)
        else ret (ok (offset + lengthFromCodePoint cp))
    end.

(** The loop of [codepoints].  Every iteration but the last advances the
    offset by at least one unit and [codePointAt] is [undefined] from the end
    of the input on, so that [length input] iterations are enough
    ([codepoints_loop_unfold] below). *)
Fixpoint codepoints_loop (fuel : nat) (isMatch : Z -> bool) (input : jsstring)
    (offset : Z) : Z :=
  match fuel with
  | O => offset
  | S fuel' =>
      match codePointAt input offset with
      | None => offset
      | Some cp =>
          if negb (isMatch cp) then offset
          else codepoints_loop fuel' isMatch input
                 (offset + (if cp >? 0xffff then 2 else 1))
      end
  end.

Definition codepoints (isMatch : Z -> bool) (expected : option (list jsstring))
  : Parser unit :=
  fun input startOffset =>
    let offset := codepoints_loop (length input) isMatch input startOffset in
    match expected with
    | Some e => if offset =? startOffset then ret (error offset e None) else ret (ok offset)
    | None => ret (ok offset)
    end.

(** The description [range] generates when no [expected] is given; [None]
    when [String.fromCodePoint] throws, which happens while the parser is
    built. *)
Definition range_expected (firstCodePoint lastCodePoint : Z)
    (expected : option (list jsstring)) : option (list jsstring) :=
  match expected with
  | Some e => Some e
  | None =>
      match fromCodePoint firstCodePoint, fromCodePoint lastCodePoint with
      | Some a, Some b => Some [a ++ str "-" ++ b]
      | _, _ => None
      end
  end.

Definition range (firstCodePoint lastCodePoint : Z) (expected : option (list jsstring))
  : option (Parser unit) :=
  match range_expected firstCodePoint lastCodePoint expected with
  | Some e => Some (codepoint (fun cp => (firstCodePoint <=? cp) && (cp <=? lastCodePoint)) e)
  | None => None
  end.

(** The loop of [skipChars]: [i] counts down from [nCodepoints]. *)
Fixpoint skipChars_loop (i : nat) (input : jsstring) (offset : Z) : ParseResult unit :=
  match i with
  | O => ok offset
  | S i' =>
      match codePointAt input offset with
      | None => error offset [str "any character"] None
      | Some cp => skipChars_loop i' input (offset + lengthFromCodePoint cp)
      end
  end.

Definition skipChars (nCodepoints : Z) : Parser unit :=
  fun input offset => ret (skipChars_loop (Z.to_nat nCodepoints) input offset).

(** ** Combinators *)

Definition map {T U} (parser : Parser T) (f : T -> U) : Parser U :=
  fun input offset =>
    let* res := parser input offset in
    match res with
    | Failure o e fa => ret (Failure o e fa)
    | Success o v => ret (okWithValue o (f v))
    end.

Definition consume {T} (parser : Parser T) : Parser unit :=
  map parser (fun _ => tt).

Definition filter {T} (parser : Parser T) (pred : T -> bool)
    (expected : list jsstring) (fatal : option bool) : Parser T :=
  fun input offset =>
    let* res := parser input offset in
    match res with
    | Failure o e fa => ret (Failure o e fa)
    | Success o v =>
        if negb (pred v) then ret (error offset expected fatal)
        else ret (Success o v)
    end.

(** The running failure of [or]: the fields of the object [lastError]
    points to. *)
Record Err : Type := mkErr {
  e_offset : Z;
  e_expected : list jsstring;
  e_fatal : bool
}.

(** The loop of [or] and the code after it.  [l] is the cell of the captured
    parameter [expected], read by the test [expected === undefined] and
    written by the assignment [expected = expected || ...] after the loop. *)
Fixpoint or_loop {T} (l : loc) (parsers : list (Parser T)) (input : jsstring)
    (offset : Z) (lastError : option Err) : M (ParseResult T) :=
  match parsers with
  | parser :: rest =>
      let* res := parser input offset in
      match res with
      | Success o v => ret (Success o v)
      | Failure o e fa =>
          let* expected := read l in
          let lastError' :=
            match lastError with
            | None => Some (mkErr o e fa)
            | Some le =>
                if o >? e_offset le then Some (mkErr o e fa)
                else if (o =? e_offset le) && is_undefined expected
                     then Some (mkErr (e_offset le) (e_expected le ++ e) (e_fatal le))
                     else Some le
            end in
          if fa then ret (Failure o e fa)
          else or_loop l rest input offset lastError'
      end
  | [] =>
      let* expected := read l in
      let expected' :=
        match expected with
        | Some e => e
        | None => match lastError with
                  | Some le => e_expected le
                  | None => []
                  end
        end in
      let* _ := write l expected' in
      match lastError with
      | Some le => ret (Failure (e_offset le) expected' (e_fatal le))
      | None => ret (error offset expected' None)
      end
  end.

Definition or {T} (l : loc) (parsers : list (Parser T)) : Parser T :=
  fun input offset => or_loop l parsers input offset None.

(** Building [or(parsers, expected)]: the closure gets the cell [l], which
    holds the argument [expected]. *)
Definition or_new (l : loc) (expected : option (list jsstring)) (s : store) : store :=
  match expected with
  | Some e => <[l := e]> s
  | None => delete l s
  end.

Definition optional {T} (parser : Parser T) : Parser (option T) :=
  fun input offset =>
    let* res := parser input offset in
    match res with
    | Failure o e fa =>
        if negb fa then ret (okWithValue offset None) else ret (Failure o e fa)
    | Success o v => ret (Success o (Some v))
    end.

Fixpoint star_loop {T} (fuel : nat) (parser : Parser T) (input : jsstring)
    (ts : list T) (nextOffset : Z) : M (ParseResult (list T)) :=
  match fuel with
  | O => fun _ => None
  | S fuel' =>
      let* res := parser input nextOffset in
      match res with
      | Failure o e fa =>
          if fa then ret (Failure o e fa)
          else ret (okWithValue nextOffset ts)
      | Success o v =>
          let ts' := ts ++ [v] in
          if o =? nextOffset then ret (okWithValue nextOffset ts')
          else star_loop fuel' parser input ts' o
      end
  end.

Definition star {T} (fuel : nat) (parser : Parser T) : Parser (list T) :=
  fun input offset => star_loop fuel parser input [] offset.

Fixpoint starConsumed_loop {T} (fuel : nat) (parser : Parser T) (input : jsstring)
    (nextOffset : Z) : M (ParseResult unit) :=
  match fuel with
  | O => fun _ => None
  | S fuel' =>
      let* res := parser input nextOffset in
      match res with
      | Failure o e fa =>
          if fa then ret (Failure o e fa)
          else ret (ok nextOffset)
      | Success o v =>
          if o =? nextOffset then ret (ok nextOffset)
          else starConsumed_loop fuel' parser input o
      end
  end.

Definition starConsumed {T} (fuel : nat) (parser : Parser T) : Parser unit :=
  fun input offset => starConsumed_loop fuel parser input offset.

(** An array entry that may be [undefined] is an [option]. *)
Definition filterUndefined {T} (parser : Parser (list (option T))) : Parser (list T) :=
  map parser (fun vs => omap id vs).

Definition then_ {T1 T2 T} (parser1 : Parser T1) (parser2 : Parser T2)
    (join : T1 -> T2 -> T) : Parser T :=
  fun input offset =>
    let* r1 := parser1 input offset in
    match r1 with
    | Failure o e fa => ret (Failure o e fa)
    | Success o1 v1 =>
        let* r2 := parser2 input o1 in
        match r2 with
        | Failure o e fa => ret (Failure o e fa)
        | Success o2 v2 => ret (okWithValue o2 (join v1 v2))
        end
    end.

Definition plus {T} (fuel : nat) (parser : Parser T) : Parser (list T) :=
  then_ parser (star fuel parser) (fun v vs => [v] ++ vs).

Definition first {T1 T2} (x : T1) (y : T2) : T1 := x.

Definition second {T1 T2} (x : T1) (y : T2) : T2 := y.

Definition plusConsumed {T} (fuel : nat) (parser : Parser T) : Parser unit :=
  then_ parser (starConsumed fuel parser) second.

Definition preceded {TBefore T} (before : Parser TBefore) (parser : Parser T) : Parser T :=
  then_ before parser second.

Definition followed {T TAfter} (parser : Parser T) (after : Parser TAfter) : Parser T :=
  then_ parser after first.

Definition cut {T} (parser : Parser T) : Parser T :=
  fun input offset =>
    let* res := parser input offset in
    match res with
    | Failure o e _ => ret (error o e (Some true))
    | Success o v => ret (Success o v)
    end.

Definition delimited {TOpen T TClose} (open : Parser TOpen) (inner : Parser T)
    (close : Parser TClose) (cutAfterOpen : option bool) : Parser T :=
  let rest := if default false cutAfterOpen
              then cut (followed inner close) else followed inner close in
  preceded open rest.

Definition recognize {T} (parser : Parser T) : Parser jsstring :=
  fun input offset =>
    let* res := parser input offset in
    match res with
    | Failure o e fa => ret (Failure o e fa)
    | Success o _ => ret (okWithValue o (slice input offset o))
    end.

Definition peek {T} (parser : Parser T) : Parser T :=
  fun input offset =>
    let* res := parser input offset in
    match res with
    | Failure o e fa => ret (Failure o e fa)
    | Success _ v => ret (okWithValue offset v)
    end.

Definition not {T} (parser : Parser T) (expected : list jsstring) : Parser unit :=
  fun input offset =>
    let* res := parser input offset in
    match res with
    | Failure _ _ _ => ret (ok offset)
    | Success _ _ => ret (error offset expected None)
    end.

Definition except {T U} (match_ : Parser T) (except_ : Parser U)
    (expected : list jsstring) : Parser T :=
  preceded (not except_ expected) match_.

(** The mapping of [dispatch] is an object keyed by code point. *)
Definition dispatch {T} (mapping : gmap Z (Parser T)) (otherwise : option (Parser T))
    (extraOffset : option Z) (expected : option (list jsstring)) : Parser T :=
  fun input offset =>
    match codePointAt input (offset + default 0 extraOffset) with
    | None => ret (error offset (default [] expected) None)
    | Some cp =>
        match mapping !! cp with
        | None =>
            match otherwise with
            | None => ret (error offset (default [] expected) None)
            | Some other => other input offset
            end
        | Some parser => parser input offset
        end
    end.

Definition start : Parser unit :=
  fun _input offset =>
    if offset =? 0 then ret (ok offset)
    else ret (error offset [str "start of input"] None).

Definition end_ : Parser unit :=
  fun input offset =>
    if strlen input =? offset then ret (ok offset)
    else ret (error offset [str "end of input"] None).

Definition complete {T} (parser : Parser T) : Parser T :=
  then_ parser end_ first.

(** ** Streaming combinators *)

(** A generator is represented by its run to completion: the values it
    yields, in order, and the value it returns.  The returned [ParseResult]
    has type [ParseResult<unknown>] in the source; its value is forgotten. *)
Definition Generator (T R : Type) : Type := (list T * R)%type.

Definition collect {T R} (gen : Generator T R) : list T * R := gen.

Definition forget {T} (r : ParseResult T) : ParseResult unit :=
  match r with
  | Success o _ => Success o tt
  | Failure o e fa => Failure o e fa
  end.

Definition StreamingParser (T : Type) : Type :=
  jsstring -> Z -> M (Generator T (ParseResult unit)).

Definition streaming {T} (parser : Parser T) : StreamingParser T :=
  fun input offset =>
    let* res := parser input offset in
    match res with
    | Success _ v => ret ([v], forget res)
    | Failure _ _ _ => ret ([], forget res)
    end.

Definition streamingThen {T} (parser1 parser2 : StreamingParser T) : StreamingParser T :=
  fun input offset =>
    let* g1 := parser1 input offset in
    match snd g1 with
    | Failure o e fa => ret (fst g1, Failure o e fa)
    | Success o1 _ =>
        let* g2 := parser2 input o1 in
        ret (fst g1 ++ fst g2, snd g2)
    end.

Definition streamingFilterUndefined {T} (parser : StreamingParser (option T))
  : StreamingParser T :=
  fun input offset =>
    let* gen := parser input offset in
    ret (omap id (fst gen), snd gen).

(** The loop of [streamingStar]; [out] holds the values yielded so far. *)
Fixpoint streamingStar_loop {T} (fuel : nat) (parser : StreamingParser T)
    (input : jsstring) (offset : Z) (out : list T)
  : M (Generator T (ParseResult unit)) :=
  match fuel with
  | O => fun _ => None
  | S fuel' =>
      let* gen := parser input offset in
      let (values, result) := collect gen in
      match result with
      | Failure o e fa =>
          if fa then ret (out, Failure o e fa)
          else ret (out, ok offset)
      | Success o _ =>
          let out' := out ++ values in
          if offset =? o then ret (out', ok offset)
          else streamingStar_loop fuel' parser input o out'
      end
  end.

Definition streamingStar {T} (fuel : nat) (parser : StreamingParser T) : StreamingParser T :=
  fun input offset => streamingStar_loop fuel parser input offset [].

Definition streamingOptional {T} (parser : StreamingParser T) : StreamingParser T :=
  fun input offset =>
    let* gen := parser input offset in
    let (values, result) := collect gen in
    match result with
    | Failure o e fa =>
        if fa then ret ([], Failure o e fa)
        else ret ([], ok offset)
    | Success o v => ret (values, Success o v)
    end.

Definition streamingComplete {T} (parser : StreamingParser T) : StreamingParser T :=
  fun input offset =>
    let* gen := parser input offset in
    match snd gen with
    | Failure o e fa => ret (fst gen, Failure o e fa)
    | Success o _ =>
        let* r := end_ input o in
        ret (fst gen, r)
    end.

(** ** The byte-oriented variant: decoding UTF-8 *)

(** A call returns normally or throws. *)
Inductive Completion (A : Type) : Type :=
| Normal (a : A)
| Throw (msg : string).
Arguments Normal {A} a.
Arguments Throw {A} msg.

Definition bytes : Type := list Z.

(** [input[i]] of an array-like: [undefined] outside the array. *)
Definition byteAt (input : bytes) (i : Z) : option Z :=
  if i <? 0 then None else input !! Z.to_nat i.

(** [x | 0] for an optional integer: [undefined] becomes 0, an integer is
    wrapped to 32 bits. *)
Definition toInt32 (x : option Z) : Z :=
  match x with
  | None => 0
  | Some z => (z + 2 ^ 31) mod 2 ^ 32 - 2 ^ 31
  end.

Definition getUtf8Length (cp : Z) : Z :=
  if cp <=? 0x7f then 1
  else if cp <=? 0x7ff then 2
  else if cp <=? 0xffff then 3
  else 4.

(** The masks are those of the source, written in hexadecimal:
    0x80 = 1_0000000, 0xe0 = 111_00000, 0xc0 = 110_00000, 0xf0 = 1111_0000,
    0xe0 = 1110_0000, 0xf8 = 11111_000, 0xf0 = 11110_000, 0x1f = 11111,
    0x0f = 1111, 0x3f = 111111.  The operands stay far below 2^31, so that
    the 32-bit operators of JavaScript agree with those of [Z]. *)
Definition getUtf8Codepoint (input : bytes) (offset : Z) : Completion (option Z) :=
  let cp := toInt32 (byteAt input offset) in
  if Z.land cp 0x80 =? 0 then Normal (Some cp)
  else
    match byteAt input (offset + 1) with
    | None => Normal None
    | Some second =>
        if Z.land cp 0xe0 =? 0xc0
        then Normal (Some (Z.lor (Z.shiftl (Z.land cp 0x1f) 6) (Z.land second 0x3f)))
        else
          match byteAt input (offset + 2) with
          | None => Normal None
          | Some third =>
              if Z.land cp 0xf0 =? 0xe0
              then Normal (Some (Z.lor (Z.lor (Z.shiftl (Z.land cp 0x0f) 12)
                                               (Z.shiftl (Z.land second 0x3f) 6))
                                        (Z.land third 0x3f)))
              else
                match byteAt input (offset + 3) with
                | None => Normal None
                | Some fourth =>
                    if Z.land cp 0xf8 =? 0xf0
                    then Normal (Some (Z.lor (Z.lor (Z.lor
                                   (Z.shiftl (Z.land cp 0x0f) 18)
                                   (Z.shiftl (Z.land second 0x3f) 12))
                                   (Z.shiftl (Z.land third 0x3f) 6))
                                   (Z.land fourth 0x3f)))
                    else Throw "invalid utf-8 character"
                end
          end
    end.

(** The parsers of the byte-oriented variant used here do not touch the
    store; they return normally or throw. *)
Definition ParserUtf8 (T : Type) : Type := bytes -> Z -> Completion (ParseResult T).

Definition codepointUtf8 (isMatch : Z -> bool) (expected : list jsstring)
  : ParserUtf8 unit :=
  fun input offset =>
    match getUtf8Codepoint input offset with
    | Throw msg => Throw msg
    | Normal None => Normal (error offset expected None)
    | Normal (Some cp) =>
        if negb (isMatch cp) then Normal (error offset expected None)
        else Normal (ok (offset + getUtf8Length cp))
    end.

Fixpoint skipCharsUtf8_loop (i : nat) (input : bytes) (offset : Z)
  : Completion (ParseResult unit) :=
  match i with
  | O => Normal (ok offset)
  | S i' =>
      match getUtf8Codepoint input offset with
      | Throw msg => Throw msg
      | Normal None => Normal (error offset [str "any character"] None)
      | Normal (Some cp) => skipCharsUtf8_loop i' input (offset + getUtf8Length cp)
      end
  end.

Definition skipCharsUtf8 (nCodepoints : Z) : ParserUtf8 unit :=
  fun input offset => skipCharsUtf8_loop (Z.to_nat nCodepoints) input offset.

(** The code points of a string, as [Array.from(token, (c) =>
    c.codePointAt(0))] lists them: the string iterator takes a surrogate pair
    as one element. *)
Fixpoint toCodePoints (s : jsstring) : list Z :=
  match s with
  | [] => []
  | u :: rest =>
      match rest with
      | u2 :: rest' =>
          if negb ((u <? 0xD800) || (0xDBFF <? u)) && negb ((u2 <? 0xDC00) || (0xDFFF <? u2))
          then ((u - 0xD800) * 0x400 + (u2 - 0xDC00) + 0x10000) :: toCodePoints rest'
          else u :: toCodePoints rest
      | [] => [u]
      end
  end.

(** The loop of [tokenUtf8] over the code points [encoded] still to match. *)
Fixpoint tokenUtf8_loop (encoded : list Z) (tok : jsstring) (input : bytes)
    (initialOffset offset : Z) : Completion (ParseResult jsstring) :=
  match encoded with
  | [] => Normal (okWithValue offset tok)
  | c :: encoded' =>
      match getUtf8Codepoint input offset with
      | Throw msg => Throw msg
      | Normal None => Normal (error initialOffset [tok] None)
      | Normal (Some cp) =>
          if negb (cp =? c) then Normal (error initialOffset [tok] None)
          else tokenUtf8_loop encoded' tok input initialOffset (offset + getUtf8Length cp)
      end
  end.

Definition tokenUtf8 (tok : jsstring) : ParserUtf8 jsstring :=
  let encoded := toCodePoints tok in
  fun input offset => tokenUtf8_loop encoded tok input offset offset.

(** The loop of [codepointsUtf8].  Nothing in the code bounds its
    iterations, so it takes fuel: [None] when the fuel runs out. *)
Fixpoint codepointsUtf8_loop (fuel : nat) (isMatch : Z -> bool) (input : bytes)
    (offset : Z) : option (Completion Z) :=
  match fuel with
  | O => None
  | S fuel' =>
      match getUtf8Codepoint input offset with
      | Throw msg => Some (Throw msg)
      | Normal None => Some (Normal offset)
      | Normal (Some cp) =>
          if negb (isMatch cp) then Some (Normal offset)
          else codepointsUtf8_loop fuel' isMatch input (offset + getUtf8Length cp)
      end
  end.

Definition codepointsUtf8 (fuel : nat) (isMatch : Z -> bool)
    (expected : option (list jsstring)) (input : bytes) (startOffset : Z)
  : option (Completion (ParseResult unit)) :=
  match codepointsUtf8_loop fuel isMatch input startOffset with
  | None => None
  | Some (Throw msg) => Some (Throw msg)
  | Some (Normal offset) =>
      match expected with
      | Some e => if offset =? startOffset then Some (Normal (error offset e None))
                  else Some (Normal (ok offset))
      | None => Some (Normal (ok offset))
      end
  end.

(** The prefix of a continuation byte: 10xxxxxx. *)
Definition is_continuation (b : Z) : bool := Z.land b 0xc0 =? 0x80.

(** The leading-byte patterns of 1, 2, 3 and 4 byte sequences. *)
Definition lead1 (b : Z) : bool := Z.land b 0x80 =? 0.
Definition lead2 (b : Z) : bool := Z.land b 0xe0 =? 0xc0.
Definition lead3 (b : Z) : bool := Z.land b 0xf0 =? 0xe0.
Definition lead4 (b : Z) : bool := Z.land b 0xf8 =? 0xf0.

(** ** Parsers built from the library *)

(** [Built c n p]: the parser [p] is built from the primitives and
    combinators of the string-oriented library.  The flag [c] tells whether
    the two constructs that mark a failure as fatal are allowed: [cut] and
    [filter] called with [fatal = true].  The number [n] is a lower bound of
    the fuel given to the loops of [star] and [starConsumed] in [p].  The
    combinators defined in the source from other combinators ([consume],
    [range], [plus], [preceded], [delimited], [complete], ...) are covered by
    the lemmas [Built_consume] and the like. *)
Inductive Built (c : bool) (n : nat) : forall {T : Type}, Parser T -> Prop :=
| B_token tok : Built c n (token tok)
| B_codepoint isMatch expected : Built c n (codepoint isMatch expected)
| B_codepoints isMatch expected : Built c n (codepoints isMatch expected)
| B_skipChars k : Built c n (skipChars k)
| B_start : Built c n start
| B_end : Built c n end_
| B_map {T U} (p : Parser T) (f : T -> U) :
    Built c n p -> Built c n (map p f)
| B_filter {T} (p : Parser T) pred expected fatal :
    (default false fatal = true -> c = true) ->
    Built c n p -> Built c n (filter p pred expected fatal)
| B_or {T} l (ps : list (Parser T)) :
    (forall p, In p ps -> Built c n p) -> Built c n (or l ps)
| B_optional {T} (p : Parser T) :
    Built c n p -> Built c n (optional p)
| B_star {T} fuel (p : Parser T) :
    (n <= fuel)%nat -> Built c n p -> Built c n (star fuel p)
| B_starConsumed {T} fuel (p : Parser T) :
    (n <= fuel)%nat -> Built c n p -> Built c n (starConsumed fuel p)
| B_then {T1 T2 T} (p1 : Parser T1) (p2 : Parser T2) (join : T1 -> T2 -> T) :
    Built c n p1 -> Built c n p2 -> Built c n (then_ p1 p2 join)
| B_recognize {T} (p : Parser T) :
    Built c n p -> Built c n (recognize p)
| B_peek {T} (p : Parser T) :
    Built c n p -> Built c n (peek p)
| B_not {T} (p : Parser T) expected :
    Built c n p -> Built c n (not p expected)
| B_dispatch {T} (mapping : gmap Z (Parser T)) otherwise extraOffset expected :
    (forall cp p, mapping !! cp = Some p -> Built c n p) ->
    (forall p, otherwise = Some p -> Built c n p) ->
    Built c n (dispatch mapping otherwise extraOffset expected)
| B_cut {T} (p : Parser T) :
    c = true -> Built c n p -> Built c n (cut p).

(** The branches of [or] before the one that decides: each fails without
    being fatal, and the store is threaded through them. *)
Inductive fails_through {T} (input : jsstring) (offset : Z)
  : list (Parser T) -> store -> store -> Prop :=
| ft_nil s : fails_through input offset [] s s
| ft_cons p ps s s1 s2 o e :
    p input offset s = Some (Failure o e false, s1) ->
    fails_through input offset ps s1 s2 ->
    fails_through input offset (p :: ps) s s2.

(** The contract [star] relies on: on this input the parser returns, at the
    starting offset and after it, and a success moves neither backward nor
    past the end of the input. *)
Definition returns_from {T} (p : Parser T) (input : jsstring) (start : Z) : Prop :=
  forall offset s, start <= offset -> p input offset s <> None.

Definition stays_within {T} (p : Parser T) (input : jsstring) : Prop :=
  forall offset s o v s',
    p input offset s = Some (Success o v, s') ->
    offset <= o <= Z.max offset (strlen input).

(** ** Streaming grammars and their two readings *)

(** A grammar built from the streaming operators over underlying parsers. *)
Inductive Grammar : Type -> Type :=
| GStreaming {T} (parser : Parser T) : Grammar T
| GThen {T} (g1 g2 : Grammar T) : Grammar T
| GStar {T} (fuel : nat) (g : Grammar T) : Grammar T
| GOptional {T} (g : Grammar T) : Grammar T
| GComplete {T} (g : Grammar T) : Grammar T
| GFilterUndefined {T} (g : Grammar (option T)) : Grammar T.

(** The streaming form of a grammar. *)
Fixpoint streaming_form {T} (g : Grammar T) : StreamingParser T :=
  match g with
  | GStreaming parser => streaming parser
  | GThen g1 g2 => streamingThen (streaming_form g1) (streaming_form g2)
  | GStar fuel g => streamingStar fuel (streaming_form g)
  | GOptional g => streamingOptional (streaming_form g)
  | GComplete g => streamingComplete (streaming_form g)
  | GFilterUndefined g => streamingFilterUndefined (streaming_form g)
  end.

(** The flattening of the value of [optional]: [null] holds no item. *)
Definition flatten_optional {T} (v : option (list T)) : list T :=
  match v with Some vs => vs | None => [] end.

(** The synchronous form of a grammar, built from the mirrored combinators
    [then], [star], [optional], [complete] and [filterUndefined], with the
    values flattened to the list of items: a single value is one item, [then]
    joins by concatenation, the array of [star] is concatenated. *)
Fixpoint sync_form {T} (g : Grammar T) : Parser (list T) :=
  match g with
  | GStreaming parser => map parser (fun v => [v])
  | GThen g1 g2 => then_ (sync_form g1) (sync_form g2) (fun vs1 vs2 => vs1 ++ vs2)
  | GStar fuel g => map (star fuel (sync_form g)) (fun vss => concat vss)
  | GOptional g => map (optional (sync_form g)) flatten_optional
  | GComplete g => complete (sync_form g)
  | GFilterUndefined g => filterUndefined (sync_form g)
  end.

(** The offset of a result lies between the starting offset and the end of
    the input, or is the starting offset itself when that one is already
    past the end. *)
Definition within {T} (input : jsstring) (offset : Z) (r : ParseResult T) : Prop :=
  offset <= offset_of r <= Z.max offset (strlen input).

(** A parser outside the contract: it succeeds at offset 1 when applied at
    offset 0 and at offset 0 when applied elsewhere.  In the source:
    [(_input, offset) => ok(offset === 0 ? 1 : 0)]. *)
Definition flip : Parser unit :=
  fun _input offset => ret (ok (if offset =? 0 then 1 else 0)).

(** A combinator hands on the fatal failure of its operand: the failure the
    operand returns is the failure the combined parser returns, and the store
    is the one the operand left. *)
Definition passes_fatal {T U} (C : Parser T -> Parser U) : Prop :=
  forall p input offset s o e s',
    p input offset s = Some (Failure o e true, s') ->
    C p input offset s = Some (Failure o e true, s').

(** The same for the operand a sequencing combinator applies second, where
    the first operand has succeeded. *)
Definition passes_fatal_second {T1 T2 U} (C : Parser T1 -> Parser T2 -> Parser U) : Prop :=
  forall p q input offset s o1 v1 s1 o e s',
    p input offset s = Some (Success o1 v1, s1) ->
    q input o1 s1 = Some (Failure o e true, s') ->
    C p q input offset s = Some (Failure o e true, s').

(** The run of a streaming form agrees with the run of a synchronous form:
    both have a result or none has; they leave the same store; the streaming
    form returns the result of the synchronous form, its value apart, so that
    both succeed or fail at the same offset; and when they succeed the items
    yielded are the flattened synchronous value. *)
Definition agree {T} (sr : option (Generator T (ParseResult unit) * store))
    (qr : option (ParseResult (list T) * store)) : Prop :=
  match sr, qr with
  | Some (gen, s1), Some (r, s2) =>
      s1 = s2 /\ snd gen = forget r /\
      (forall o vs, r = Success o vs -> fst gen = vs)
  | None, None => True
  | _, _ => False
  end.

(** All the branches of [or] fail without being fatal: the failures they
    return, in order, with the store threaded through them.  The branches
    leave the cell [l] of the [or] they belong to as it is. *)
Inductive all_fail {T} (l : loc) (input : jsstring) (offset : Z)
  : list (Parser T) -> store -> list Err -> store -> Prop :=
| af_nil s : all_fail l input offset [] s [] s
| af_cons p ps s s1 s2 o e fs :
    p input offset s = Some (Failure o e false, s1) ->
    s1 !! l = s !! l ->
    all_fail l input offset ps s1 fs s2 ->
    all_fail l input offset (p :: ps) s (mkErr o e false :: fs) s2.

(** The aggregate failure in the words of the specification: the greatest
    offset among the failures, the starting offset when there is none, and
    the expected lists of the failures at that offset, concatenated in
    order. *)
Definition furthest (start : Z) (fs : list Err) : Z :=
  match fs with
  | [] => start
  | f :: fs' => fold_left Z.max (List.map e_offset fs') (e_offset f)
  end.

Definition expected_at (m : Z) (fs : list Err) : list jsstring :=
  concat (List.map e_expected (List.filter (fun f => e_offset f =? m) fs)).

(** ** Reference definitions for the byte-oriented variant *)

(** An array of bytes, as a [Uint8Array] holds them. *)
Definition wf_bytes (input : bytes) : Prop :=
  Forall (fun b => 0 <= b < 256) input.

(** The UTF-8 encoding of a code point (RFC 3629), the format
    [getUtf8Codepoint] reads.  The repository holds no encoder: this one
    only serves to state what the decoder and [getUtf8Length] do on encoded
    text. *)
Definition utf8_encode (cp : Z) : bytes :=
  if cp <=? 0x7f then [cp]
  else if cp <=? 0x7ff then [0xc0 + cp / 64; 0x80 + cp mod 64]
  else if cp <=? 0xffff
       then [0xe0 + cp / 4096; 0x80 + (cp / 64) mod 64; 0x80 + cp mod 64]
       else [0xf0 + cp / 262144; 0x80 + (cp / 4096) mod 64;
             0x80 + (cp / 64) mod 64; 0x80 + cp mod 64].

Definition utf8_encode_all (cps : list Z) : bytes :=
  concat (List.map utf8_encode cps).

(** [String.fromCodePoint(...codepoints)], a built-in of ECMAScript, for a
    list of arguments of which some may be [undefined]: [None] stands for
    the [RangeError] it throws on an argument that is no code point. *)
Fixpoint fromCodePoints (cps : list (option Z)) : option jsstring :=
  match cps with
  | [] => Some []
  | None :: _ => None
  | Some cp :: cps' =>
      match fromCodePoint cp, fromCodePoints cps' with
      | Some a, Some b => Some (a ++ b)
      | _, _ => None
      end
  end.

(** The loop of [recognizeUtf8], which walks from [offset] to the offset
    the parser reached.  A code point that is [undefined] is pushed as it is
    (the source asserts it is not) and [getUtf8Length(undefined)] is 4, all
    its comparisons being false.  Every iteration advances, so that
    [Z.to_nat (resOffset - offset)] iterations are enough. *)
Fixpoint recognizeUtf8_loop (fuel : nat) (input : bytes) (offset resOffset : Z)
    (codepoints : list (option Z)) : Completion (list (option Z)) :=
  match fuel with
  | O => Normal codepoints
  | S fuel' =>
      if offset <? resOffset then
        match getUtf8Codepoint input offset with
        | Throw msg => Throw msg
        | Normal None =>
            recognizeUtf8_loop fuel' input (offset + 4) resOffset (codepoints ++ [None])
        | Normal (Some cp) =>
            recognizeUtf8_loop fuel' input (offset + getUtf8Length cp) resOffset
              (codepoints ++ [Some cp])
        end
      else Normal codepoints
  end.

Definition recognizeUtf8 {T} (parser : ParserUtf8 T) : ParserUtf8 jsstring :=
  fun input offset =>
    match parser input offset with
    | Throw msg => Throw msg
    | Normal (Failure o e fa) => Normal (Failure o e fa)
    | Normal (Success o _) =>
        match recognizeUtf8_loop (Z.to_nat (o - offset)) input offset o [] with
        | Throw msg => Throw msg
        | Normal codepoints =>
            match fromCodePoints codepoints with
            | None => Throw "RangeError: invalid code point"
            | Some text => Normal (okWithValue o text)
            end
        end
    end.

(** [rangeUtf8] builds its description as [range] does, and is
    [codepointUtf8] with the test of the two bounds; [None] when
    [String.fromCodePoint] throws while the parser is built. *)
Definition rangeUtf8 (firstCodePoint lastCodePoint : Z) (expected : option (list jsstring))
  : option (ParserUtf8 unit) :=
  match range_expected firstCodePoint lastCodePoint expected with
  | Some e =>
      Some (codepointUtf8 (fun cp => (firstCodePoint <=? cp) && (cp <=? lastCodePoint)) e)
  | None => None
  end.

(** The mapping of [dispatchUtf8] is an object keyed by code point. *)
Definition dispatchUtf8 {T} (mapping : gmap Z (ParserUtf8 T))
    (otherwise : option (ParserUtf8 T)) (extraOffset : option Z)
    (expected : option (list jsstring)) : ParserUtf8 T :=
  fun input offset =>
    match getUtf8Codepoint input (offset + default 0 extraOffset) with
    | Throw msg => Throw msg
    | Normal None => Normal (error offset (default [] expected) None)
    | Normal (Some cp) =>
        match mapping !! cp with
        | None =>
            match otherwise with
            | None => Normal (error offset (default [] expected) None)
            | Some other => other input offset
            end
        | Some parser => parser input offset
        end
    end.

(** ** Theorems *)

Lemma slice_empty_span (s : jsstring) (i : Z) : slice s i i = [].
Proof.
  unfold slice. destruct (i <? 0); rewrite Z.sub_diag; reflexivity.
Qed.

(** C10: the parser built from the empty token succeeds at every offset,
    also beyond the end of the input and before its start, at that same
    offset and with the empty string as value; the store is untouched. *)
Theorem token_empty_succeeds (input : jsstring) (offset : Z) (s : store) :
  token [] input offset s = Some (Success offset [], s).
Proof.
  unfold token, strlen. simpl. rewrite Z.add_0_r.
  rewrite slice_empty_span.
  destruct (decide (@nil Z = [])) as [_|n]; [reflexivity | contradiction].
Qed.

(** ** Running the monad *)

Lemma bind_Some {A B} (m : M A) (k : A -> M B) (s : store) (x : B * store) :
  bind m k s = Some x <-> exists a s1, m s = Some (a, s1) /\ k a s1 = Some x.
Proof.
  unfold bind. split.
  - destruct (m s) as [[a s1]|] eqn:E; [eauto | discriminate].
  - intros (a & s1 & -> & H). exact H.
Qed.

Lemma ret_Some {A} (a b : A) (s s' : store) :
  ret a s = Some (b, s') <-> a = b /\ s = s'.
Proof.
  unfold ret. split; [intros [= -> ->] | intros [-> ->]]; auto.
Qed.

Lemma read_Some (l : loc) (s s' : store) (x : option (list jsstring)) :
  read l s = Some (x, s') <-> x = s !! l /\ s' = s.
Proof.
  unfold read. split; [intros [= <- <-] | intros [-> ->]]; auto.
Qed.

(** One step of inversion of a run. *)
Ltac run_step :=
  match goal with
  | H : bind _ _ _ = Some _ |- _ =>
      apply bind_Some in H; destruct H as (? & ? & ? & H)
  | H : ret _ _ = Some _ |- _ =>
      apply ret_Some in H; destruct H as [? ?]
  | H : read _ _ = Some _ |- _ =>
      apply read_Some in H; destruct H as [? ?]
  | H : Some _ = Some _ |- _ => injection H as H
  | H : None = Some _ |- _ => discriminate H
  | H : (_, _) = (_, _) |- _ => injection H as ? ?
  | H : Success _ _ = Success _ _ |- _ => injection H as ? ?
  | H : Failure _ _ _ = Failure _ _ _ |- _ => injection H as ? ? ?
  | H : Success _ _ = Failure _ _ _ |- _ => discriminate H
  | H : Failure _ _ _ = Success _ _ |- _ => discriminate H
  | H : okWithValue _ _ = _ |- _ => unfold okWithValue in H
  | H : ok _ = _ |- _ => unfold ok in H
  | H : error _ _ _ = _ |- _ => unfold error in H
  | H : context [match ?r with Success _ _ => _ | Failure _ _ _ => _ end] |- _ =>
      destruct r eqn:?
  | H : context [if ?b then _ else _] |- _ => destruct b eqn:?
  end.

Ltac run_inv := repeat (run_step; subst; simpl in *).

(** ** No backward movement *)

Lemma lengthFromCodePoint_pos (cp : Z) : 1 <= lengthFromCodePoint cp <= 2.
Proof. unfold lengthFromCodePoint. destruct (cp >? 0xffff); lia. Qed.

Lemma codepoints_loop_ge (fuel : nat) isMatch input offset :
  offset <= codepoints_loop fuel isMatch input offset.
Proof.
  revert offset. induction fuel as [|fuel IH]; intros offset; simpl; [lia|].
  destruct (codePointAt input offset) as [cp|]; [|lia].
  destruct (negb (isMatch cp)); [lia|].
  specialize (IH (offset + (if cp >? 0xffff then 2 else 1))).
  destruct (cp >? 0xffff); lia.
Qed.

Lemma skipChars_loop_ge (i : nat) input offset o v :
  skipChars_loop i input offset = Success o v -> offset <= o.
Proof.
  revert offset. induction i as [|i IH]; intros offset; simpl.
  - unfold ok, okWithValue. intros [= <- _]. lia.
  - destruct (codePointAt input offset) as [cp|]; [|discriminate].
    intros H. apply IH in H. pose proof (lengthFromCodePoint_pos cp). lia.
Qed.

Lemma or_loop_success {T} (P : Z -> T -> store -> Prop) l (ps : list (Parser T))
    input offset :
  (forall p, In p ps -> forall s o v s',
      p input offset s = Some (Success o v, s') -> P o v s') ->
  forall lastError s o v s',
    or_loop l ps input offset lastError s = Some (Success o v, s') -> P o v s'.
Proof.
  induction ps as [|p ps IH]; intros Hps lastError s o v s' H; simpl in H.
  - destruct lastError; run_inv.
  - apply bind_Some in H. destruct H as (r & s1 & Hp & H).
    destruct r as [o1 v1|o1 e1 fa1].
    + run_inv. eapply Hps; [left; reflexivity | eassumption].
    + apply bind_Some in H. destruct H as (ex & s2 & Hr & H).
      apply read_Some in Hr. destruct Hr as [-> ->].
      destruct fa1; [run_inv|].
      eapply IH; [|eassumption]. intros q Hq. apply Hps. right. exact Hq.
Qed.

Lemma star_loop_ge {T} (p : Parser T) input :
  (forall offset s o v s', p input offset s = Some (Success o v, s') -> offset <= o) ->
  forall fuel ts nextOffset s o v s',
    star_loop fuel p input ts nextOffset s = Some (Success o v, s') ->
    nextOffset <= o.
Proof.
  intros Hp. induction fuel as [|fuel IH]; intros ts nextOffset s o v s' H; simpl in H.
  - discriminate.
  - apply bind_Some in H. destruct H as (r & s1 & Hr & H).
    destruct r as [o1 v1|o1 e1 fa1].
    + destruct (o1 =? nextOffset) eqn:E.
      * run_inv. lia.
      * apply IH in H. apply Hp in Hr. lia.
    + destruct fa1; run_inv. lia.
Qed.

Lemma starConsumed_loop_ge {T} (p : Parser T) input :
  (forall offset s o v s', p input offset s = Some (Success o v, s') -> offset <= o) ->
  forall fuel nextOffset s o v s',
    starConsumed_loop fuel p input nextOffset s = Some (Success o v, s') ->
    nextOffset <= o.
Proof.
  intros Hp. induction fuel as [|fuel IH]; intros nextOffset s o v s' H; simpl in H.
  - discriminate.
  - apply bind_Some in H. destruct H as (r & s1 & Hr & H).
    destruct r as [o1 v1|o1 e1 fa1].
    + destruct (o1 =? nextOffset) eqn:E.
      * run_inv. lia.
      * apply IH in H. apply Hp in Hr. lia.
    + destruct fa1; run_inv. lia.
Qed.

Lemma Built_forward (c : bool) (n : nat) {T} (p : Parser T) :
  Built c n p ->
  forall input offset s o v s',
    p input offset s = Some (Success o v, s') -> offset <= o.
Proof.
  induction 1; intros input offset s o v s' Hrun.
  - unfold token in Hrun. run_inv. unfold strlen. lia.
  - unfold codepoint in Hrun.
    destruct (codePointAt input offset) as [cp|] eqn:E; run_inv.
    pose proof (lengthFromCodePoint_pos cp). lia.
  - unfold codepoints in Hrun.
    pose proof (codepoints_loop_ge (length input) isMatch input offset).
    destruct expected; run_inv; lia.
  - unfold skipChars in Hrun. run_inv. eapply skipChars_loop_ge; eassumption.
  - unfold start in Hrun. run_inv. lia.
  - unfold end_ in Hrun. run_inv. lia.
  - unfold map in Hrun. run_inv. eauto.
  - unfold filter in Hrun. run_inv. eauto.
  - unfold or in Hrun.
    eapply (or_loop_success (fun o _ _ => offset <= o)); [|eassumption].
    intros q Hq s0 o0 v0 s0' Hq'. eapply H0; eassumption.
  - unfold optional in Hrun. run_inv; [eauto | lia].
  - unfold star in Hrun. eapply star_loop_ge; [|eassumption]. eauto.
  - unfold starConsumed in Hrun. eapply starConsumed_loop_ge; [|eassumption]. eauto.
  - unfold then_ in Hrun. run_inv.
    match goal with
    | H1 : p1 _ _ _ = Some _, H2 : p2 _ _ _ = Some _ |- _ =>
        apply IHBuilt1 in H1; apply IHBuilt2 in H2; lia
    end.
  - unfold recognize in Hrun. run_inv. eauto.
  - unfold peek in Hrun. run_inv. lia.
  - unfold not in Hrun. run_inv. lia.
  - unfold dispatch in Hrun.
    destruct (codePointAt input (offset + default 0 extraOffset)) as [cp|]; [|run_inv].
    destruct (mapping !! cp) as [q|] eqn:E.
    + eapply H0; eassumption.
    + destruct otherwise as [q|]; [|run_inv]. eapply H2; [reflexivity | eassumption].
  - unfold cut in Hrun. run_inv. eauto.
Qed.

(** ** The combinators defined from other combinators are built too *)

Lemma Built_consume c n {T} (p : Parser T) : Built c n p -> Built c n (consume p).
Proof. intros H. unfold consume. constructor. exact H. Qed.

Lemma Built_range c n firstCodePoint lastCodePoint expected p :
  range firstCodePoint lastCodePoint expected = Some p -> Built c n p.
Proof.
  unfold range. destruct (range_expected _ _ _); [|discriminate].
  intros [= <-]. constructor.
Qed.

Lemma Built_filterUndefined c n {T} (p : Parser (list (option T))) :
  Built c n p -> Built c n (filterUndefined p).
Proof. intros H. unfold filterUndefined. constructor. exact H. Qed.

Lemma Built_plus c n {T} fuel (p : Parser T) :
  (n <= fuel)%nat -> Built c n p -> Built c n (plus fuel p).
Proof. intros Hf H. unfold plus. constructor; [exact H | constructor; assumption]. Qed.

Lemma Built_plusConsumed c n {T} fuel (p : Parser T) :
  (n <= fuel)%nat -> Built c n p -> Built c n (plusConsumed fuel p).
Proof.
  intros Hf H. unfold plusConsumed. constructor; [exact H | constructor; assumption].
Qed.

Lemma Built_preceded c n {T U} (before : Parser T) (p : Parser U) :
  Built c n before -> Built c n p -> Built c n (preceded before p).
Proof. intros H1 H2. unfold preceded. constructor; assumption. Qed.

Lemma Built_followed c n {T U} (p : Parser T) (after : Parser U) :
  Built c n p -> Built c n after -> Built c n (followed p after).
Proof. intros H1 H2. unfold followed. constructor; assumption. Qed.

Lemma Built_delimited c n {T U V} (open : Parser T) (inner : Parser U) (close : Parser V)
    cutAfterOpen :
  (default false cutAfterOpen = true -> c = true) ->
  Built c n open -> Built c n inner -> Built c n close ->
  Built c n (delimited open inner close cutAfterOpen).
Proof.
  intros Hc H1 H2 H3. unfold delimited. apply Built_preceded; [exact H1|].
  destruct (default false cutAfterOpen).
  - constructor; [auto | apply Built_followed; assumption].
  - apply Built_followed; assumption.
Qed.

Lemma Built_except c n {T U} (p : Parser T) (q : Parser U) expected :
  Built c n p -> Built c n q -> Built c n (except p q expected).
Proof.
  intros H1 H2. unfold except. apply Built_preceded; [constructor|]; assumption.
Qed.

Lemma Built_complete c n {T} (p : Parser T) : Built c n p -> Built c n (complete p).
Proof. intros H. unfold complete. constructor; [exact H | constructor]. Qed.

(** Whatever is built without the fatal constructs is built with them. *)
Lemma Built_weaken c n {T} (p : Parser T) : Built c n p -> Built true n p.
Proof.
  induction 1; constructor; auto.
Qed.

(** C7: a success of a parser built from the library is at an offset not
    before the starting offset, and a success of [peek] is at the starting
    offset itself. *)
Theorem success_never_moves_backward (c : bool) (n : nat) {T} (p : Parser T)
    (input : jsstring) (offset : Z) (s : store) :
  Built c n p ->
  (forall o v s', p input offset s = Some (Success o v, s') -> offset <= o) /\
  (forall o v s', peek p input offset s = Some (Success o v, s') -> o = offset).
Proof.
  intros HB. split.
  - intros o v s' H. eapply Built_forward; eassumption.
  - intros o v s' H. unfold peek in H. run_inv. reflexivity.
Qed.

Lemma success_never_moves_backward_witness :
  Built false 0 (token (str "zaz")) /\
  token (str "zaz") (str "zzazz") 1 ∅ = Some (Success 4 (str "zaz"), ∅) /\
  1 <= 4 /\
  peek (token (str "zaz")) (str "zzazz") 1 ∅ = Some (Success 1 (str "zaz"), ∅) /\
  1 = 1.
Proof.
  pose proof (success_never_moves_backward false 0%nat (token (str "zaz")) (str "zzazz") 1 ∅
                (B_token false 0%nat (str "zaz"))) as [H1 H2].
  split; [constructor|].
  split; [vm_compute; reflexivity|].
  split; [apply (H1 4 (str "zaz") ∅); vm_compute; reflexivity|].
  split; [vm_compute; reflexivity|].
  apply (H2 1 (str "zaz") ∅); vm_compute; reflexivity.
Defined.

(** ** [or]: fatal failures *)

Lemma or_loop_fatal {T} l (after : list (Parser T)) (p : Parser T) input offset
    before s s1 :
  fails_through input offset before s s1 ->
  forall lastError s2 o e,
    p input offset s1 = Some (Failure o e true, s2) ->
    or_loop l (before ++ p :: after) input offset lastError s
    = Some (Failure o e true, s2).
Proof.
  induction 1 as [s|q qs s sa sb o' e' Hq Hqs IH]; intros lastError s2 o e Hp.
  - simpl. unfold bind. rewrite Hp. reflexivity.
  - simpl. unfold bind at 1. rewrite Hq. unfold bind at 1. simpl.
    apply IH. exact Hp.
Qed.

(** C2: when the branches tried before a branch fail without being fatal and
    that branch returns a fatal failure, [or] returns this very failure and
    leaves the store as the branch left it, whatever the later branches are:
    they are not applied, and the cell of [expected] is not written.  In
    particular a first branch wrapped in [cut] that fails makes [or] return
    its failure with [fatal = true]. *)
Theorem or_stops_at_fatal {T} (l : loc) (after : list (Parser T))
    (input : jsstring) (offset : Z) (s : store) :
  (forall before (p : Parser T) s1 s2 o e,
      fails_through input offset before s s1 ->
      p input offset s1 = Some (Failure o e true, s2) ->
      or l (before ++ p :: after) input offset s = Some (Failure o e true, s2)) /\
  (forall (p : Parser T) s2 o e fa,
      p input offset s = Some (Failure o e fa, s2) ->
      or l (cut p :: after) input offset s = Some (Failure o e true, s2)).
Proof.
  split.
  - intros before p s1 s2 o e Hb Hp. unfold or.
    eapply or_loop_fatal; eassumption.
  - intros p s2 o e fa Hp. unfold or.
    apply (or_loop_fatal l after (cut p) input offset [] s s (ft_nil input offset s)).
    unfold cut, bind. rewrite Hp. reflexivity.
Qed.

Lemma or_stops_at_fatal_witness :
  or 0%nat [followed (token (str "b")) (token (str "c")); cut (token (str "a")); token (str "b")]
     (str "b") 0 ∅
  = Some (Failure 0 [str "a"] true, ∅) /\
  or 0%nat [cut (token (str "a")); token (str "b")] (str "b") 0 ∅
  = Some (Failure 0 [str "a"] true, ∅).
Proof.
  pose proof (or_stops_at_fatal 0%nat [token (str "b")] (str "b") 0 ∅) as [H1 H2].
  split.
  - apply (H1 [followed (token (str "b")) (token (str "c"))] (cut (token (str "a"))) ∅ ∅).
    + eapply ft_cons; [vm_compute; reflexivity | apply ft_nil].
    + vm_compute; reflexivity.
  - apply (H2 (token (str "a")) ∅ 0 [str "a"] false). vm_compute; reflexivity.
Defined.

(** ** [or]: the aggregate failure *)

Lemma fold_left_max_ge (zs : list Z) (a : Z) : a <= fold_left Z.max zs a.
Proof.
  revert a. induction zs as [|z zs IH]; intros a; simpl; [lia|].
  specialize (IH (Z.max a z)). lia.
Qed.

Lemma fold_left_max_mono (zs : list Z) (a b : Z) :
  a <= b -> fold_left Z.max zs a <= fold_left Z.max zs b.
Proof.
  revert a b. induction zs as [|z zs IH]; intros a b H; simpl; [lia|].
  apply IH. lia.
Qed.

Lemma fold_left_max_in (zs : list Z) (a z : Z) :
  z = a \/ In z zs -> z <= fold_left Z.max zs a.
Proof.
  revert a. induction zs as [|y ys IH]; intros a H; simpl.
  - destruct H as [->|[]]. lia.
  - destruct H as [->|[->|H]].
    + pose proof (fold_left_max_ge ys (Z.max a y)). lia.
    + pose proof (fold_left_max_ge ys (Z.max a z)). lia.
    + apply IH. right. exact H.
Qed.

Lemma furthest_snoc (start : Z) (pre : list Err) (f : Err) :
  pre <> [] ->
  furthest start (pre ++ [f]) = Z.max (furthest start pre) (e_offset f).
Proof.
  destruct pre as [|f0 rest]; [congruence|]. intros _.
  unfold furthest. simpl. rewrite List.map_app, fold_left_app. reflexivity.
Qed.

Lemma furthest_ge (start : Z) (pre : list Err) (x : Err) :
  In x pre -> e_offset x <= furthest start pre.
Proof.
  destruct pre as [|f0 rest]; [intros []|]. unfold furthest.
  intros [->|Hx]; apply fold_left_max_in; [left; reflexivity|].
  right. apply List.in_map. exact Hx.
Qed.

Lemma expected_at_snoc (m : Z) (pre : list Err) (f : Err) :
  expected_at m (pre ++ [f])
  = expected_at m pre ++ (if e_offset f =? m then e_expected f else []).
Proof.
  unfold expected_at. rewrite List.filter_app, List.map_app, concat_app. simpl.
  destruct (e_offset f =? m); simpl; [rewrite app_nil_r|]; reflexivity.
Qed.

Lemma expected_at_below (m : Z) (pre : list Err) :
  (forall x, In x pre -> e_offset x < m) -> expected_at m pre = [].
Proof.
  intros H. unfold expected_at.
  replace (List.filter (fun f => e_offset f =? m) pre) with (@nil Err); [reflexivity|].
  symmetry. induction pre as [|x xs IH]; [reflexivity|]. simpl.
  destruct (Z.eqb_spec (e_offset x) m) as [E|_].
  - specialize (H x (or_introl eq_refl)). lia.
  - apply IH. intros y Hy. apply H. right. exact Hy.
Qed.

(** The loop of [or] from a running failure [le] that sums up the failures
    [pre] met so far. *)
Lemma or_loop_aggregates {T} (l : loc) (input : jsstring) (offset : Z)
    (ps : list (Parser T)) (s s' : store) (fs : list Err) :
  all_fail l input offset ps s fs s' ->
  forall pre le,
    pre <> [] ->
    e_offset le = furthest offset pre ->
    e_fatal le = false ->
    (s !! l = None -> e_expected le = expected_at (furthest offset pre) pre) ->
    let reported :=
      match s !! l with
      | Some e => e
      | None => expected_at (furthest offset (pre ++ fs)) (pre ++ fs)
      end in
    or_loop l ps input offset (Some le) s
    = Some (Failure (furthest offset (pre ++ fs)) reported false, <[l := reported]> s').
Proof.
  induction 1 as [s|p ps s s1 s2 o e fs Hp Hcell Hrest IH];
    intros pre le Hpre Hoff Hfatal Hexp; simpl.
  - rewrite app_nil_r. unfold bind, read, write, ret.
    destruct (s !! l) as [ex|] eqn:El; simpl.
    + rewrite Hoff, Hfatal. reflexivity.
    + rewrite Hoff, Hfatal, (Hexp eq_refl). reflexivity.
  - unfold bind at 1. rewrite Hp. unfold bind at 1, read. simpl.
    set (f := mkErr o e false).
    assert (Hsnoc : furthest offset (pre ++ [f]) = Z.max (furthest offset pre) o).
    { apply furthest_snoc. exact Hpre. }
    assert (Hne : pre ++ [f] <> []) by (destruct pre; discriminate).
    replace (pre ++ f :: fs) with ((pre ++ [f]) ++ fs)
      by (rewrite <- app_assoc; reflexivity).
    rewrite <- Hcell.
    destruct (Z.gtb_spec o (e_offset le)) as [Hgt|Hle].
    + apply (IH (pre ++ [f]) f Hne); [rewrite Hsnoc; simpl; lia | reflexivity |].
      intros _. rewrite Hsnoc. replace (Z.max (furthest offset pre) o) with o by lia.
      rewrite expected_at_snoc. simpl. rewrite Z.eqb_refl.
      rewrite expected_at_below; [reflexivity|].
      intros x Hx. pose proof (furthest_ge offset pre x Hx). lia.
    + destruct (Z.eqb_spec o (e_offset le)) as [Heq|Hneq]; simpl.
      * destruct (s1 !! l) as [ex|] eqn:El; simpl.
        -- apply (IH (pre ++ [f]) le Hne); [rewrite Hsnoc; lia | exact Hfatal |].
           intros [=].
        -- apply (IH (pre ++ [f]) (mkErr (e_offset le) (e_expected le ++ e) (e_fatal le)) Hne);
             [rewrite Hsnoc; simpl; lia | exact Hfatal |].
           intros _. simpl. rewrite Hsnoc.
           replace (Z.max (furthest offset pre) o) with (furthest offset pre) by lia.
           rewrite expected_at_snoc. simpl.
           replace (o =? furthest offset pre) with true
             by (symmetry; apply Z.eqb_eq; lia).
           rewrite Hexp; [reflexivity|]. congruence.
      * apply (IH (pre ++ [f]) le Hne); [rewrite Hsnoc; lia | exact Hfatal |].
        intros El. rewrite Hsnoc.
        replace (Z.max (furthest offset pre) o) with (furthest offset pre) by lia.
        rewrite expected_at_snoc. simpl.
        replace (o =? furthest offset pre) with false
          by (symmetry; apply Z.eqb_neq; lia).
        rewrite app_nil_r. apply Hexp. congruence.
Qed.

(** X9: at a given content of its cell, [or] reports what the specification
    says when all its branches fail without being fatal: the greatest offset
    of the failures, with the content of the cell when there is one (the
    override) and else with the expected lists of the failures at that
    offset, concatenated; with no branch, the starting offset and the
    override or the empty list.  The list reported is written to the cell. *)
Lemma or_aggregates {T} (l : loc) (input : jsstring) (offset : Z)
    (ps : list (Parser T)) (s s' : store) (fs : list Err) :
  all_fail l input offset ps s fs s' ->
  let reported :=
    match s !! l with
    | Some e => e
    | None => expected_at (furthest offset fs) fs
    end in
  or l ps input offset s
  = Some (Failure (furthest offset fs) reported false, <[l := reported]> s').
Proof.
  intros H. unfold or. destruct H as [s|p ps s s1 s2 o e fs Hp Hcell Hrest]; simpl.
  - unfold bind, read, write, ret, error. destruct (s !! l); reflexivity.
  - unfold bind at 1. rewrite Hp. unfold bind at 1, read. simpl.
    rewrite <- Hcell.
    apply (or_loop_aggregates l input offset ps s1 s2 fs Hrest [mkErr o e false]
             (mkErr o e false)); [discriminate | reflexivity | reflexivity |].
    intros _. unfold expected_at, furthest. simpl. rewrite Z.eqb_refl. simpl.
    rewrite app_nil_r. reflexivity.
Qed.

(** C1: the closure of [or] assigns the list it reports to its captured
    parameter [expected].  Built without an override and applied to "ax",
    the parser below fails at offset 1 expecting "b" and keeps that list in
    its cell; applied then to "x", where both branches fail at offset 0
    expecting "a" and "c", it reports "b" again.  A closure that has not run
    before reports "a" and "c" there. *)
Theorem or_reports_retained_expected :
  let p := or 0%nat [preceded (token (str "a")) (token (str "b")); token (str "c")] in
  let fresh := or_new 0%nat None ∅ in
  let used := <[0%nat := [str "b"]]> (∅ : store) in
  p (str "ax") 0 fresh = Some (Failure 1 [str "b"] false, used) /\
  p (str "x") 0 used = Some (Failure 0 [str "b"] false, used) /\
  p (str "x") 0 fresh
  = Some (Failure 0 [str "a"; str "c"] false, <[0%nat := [str "a"; str "c"]]> ∅).
Proof.
  repeat split; vm_compute; reflexivity.
Qed.

(** ** [complete] *)

(** C6, as the code has it: [complete p] returns the success of [p] when [p]
    succeeds at the end of the input; it fails without being fatal, expecting
    "end of input", at the offset [p] reached when [p] succeeds elsewhere;
    and it returns the failure of [p] as it is when [p] fails. *)
Theorem complete_spec {T} (p : Parser T) (input : jsstring) (offset : Z) (s : store) :
  complete p input offset s =
  match p input offset s with
  | None => None
  | Some (Success o v, s1) =>
      if strlen input =? o then Some (Success o v, s1)
      else Some (Failure o [str "end of input"] false, s1)
  | Some (Failure o e fa, s1) => Some (Failure o e fa, s1)
  end.
Proof.
  unfold complete, then_, bind.
  destruct (p input offset s) as [[[o v|o e fa] s1]|]; try reflexivity.
  unfold end_. destruct (strlen input =? o); reflexivity.
Qed.

(** C6 as stated fails when [p] itself fails: the failure of [complete p] is
    then the one of [p], with the expectation of [p]. *)
Lemma complete_inner_failure_kept :
  complete (token (str "a")) (str "b") 0 ∅ = Some (Failure 0 [str "a"] false, ∅) /\
  [str "a"] <> [str "end of input"].
Proof.
  split; [vm_compute; reflexivity | discriminate].
Qed.

(** ** Offsets stay within the input *)

Lemma charCodeAt_Some (s : jsstring) (i u : Z) :
  charCodeAt s i = Some u -> 0 <= i < strlen s /\ In u s.
Proof.
  unfold charCodeAt, strlen. destruct (Z.ltb_spec i 0) as [|Hi]; [discriminate|].
  intros H. split.
  - apply lookup_lt_Some in H. lia.
  - apply list_elem_of_In. eapply list_elem_of_lookup_2. exact H.
Qed.

Lemma codePointAt_Some_bound (input : jsstring) (pos cp : Z) :
  wf_string input ->
  codePointAt input pos = Some cp ->
  0 <= pos /\ pos + lengthFromCodePoint cp <= strlen input.
Proof.
  intros Hwf. unfold codePointAt, lengthFromCodePoint.
  destruct (charCodeAt input pos) as [u1|] eqn:E1; [|discriminate].
  apply charCodeAt_Some in E1. destruct E1 as [Hpos Hin1].
  assert (0 <= u1 < 65536) as Hu1.
  { unfold wf_string in Hwf. rewrite List.Forall_forall in Hwf. apply Hwf. exact Hin1. }
  destruct ((u1 <? 0xD800) || (0xDBFF <? u1)) eqn:Es.
  - intros [= <-]. destruct (Z.gtb_spec u1 0xffff); lia.
  - destruct (charCodeAt input (pos + 1)) as [u2|] eqn:E2.
    + apply charCodeAt_Some in E2. destruct E2 as [Hpos2 _].
      destruct ((u2 <? 0xDC00) || (0xDFFF <? u2)) eqn:Es2.
      * intros [= <-]. destruct (Z.gtb_spec u1 0xffff); lia.
      * intros [= <-].
        match goal with |- context [if ?b then _ else _] => destruct b end; lia.
    + intros [= <-]. destruct (Z.gtb_spec u1 0xffff); lia.
Qed.

Lemma slice_length (s : jsstring) (a b : Z) :
  Z.of_nat (length (slice s a b)) <=
  Z.max 0 ((if b <? 0 then Z.max (strlen s + b) 0 else Z.min b (strlen s))
           - (if a <? 0 then Z.max (strlen s + a) 0 else Z.min a (strlen s))).
Proof.
  unfold slice. rewrite length_take. lia.
Qed.

Lemma slice_eq_bound (input tok : jsstring) (offset : Z) :
  slice input offset (offset + strlen tok) = tok ->
  offset + strlen tok <= Z.max offset (strlen input).
Proof.
  intros H.
  pose proof (slice_length input offset (offset + strlen tok)) as Hl.
  rewrite H in Hl. fold (strlen tok) in Hl.
  assert (0 <= strlen tok) by (unfold strlen; lia).
  assert (0 <= strlen input) by (unfold strlen; lia).
  destruct (Z.ltb_spec (offset + strlen tok) 0), (Z.ltb_spec offset 0); lia.
Qed.

Lemma codepoints_loop_le (input : jsstring) isMatch :
  wf_string input ->
  forall fuel offset,
    codepoints_loop fuel isMatch input offset <= Z.max offset (strlen input).
Proof.
  intros Hwf. induction fuel as [|fuel IH]; intros offset; simpl; [lia|].
  destruct (codePointAt input offset) as [cp|] eqn:E; [|lia].
  destruct (negb (isMatch cp)); [lia|].
  apply codePointAt_Some_bound in E; [|exact Hwf].
  unfold lengthFromCodePoint in E.
  specialize (IH (offset + (if cp >? 0xffff then 2 else 1))). lia.
Qed.

Lemma skipChars_loop_within (input : jsstring) :
  wf_string input ->
  forall i offset, within input offset (skipChars_loop i input offset).
Proof.
  intros Hwf. unfold within.
  induction i as [|i IH]; intros offset; simpl; [lia|].
  destruct (codePointAt input offset) as [cp|] eqn:E; simpl; [|lia].
  apply codePointAt_Some_bound in E; [|exact Hwf].
  pose proof (lengthFromCodePoint_pos cp).
  specialize (IH (offset + lengthFromCodePoint cp)). lia.
Qed.

Lemma or_loop_within {T} l (ps : list (Parser T)) input offset :
  (forall p, In p ps -> forall s r s',
      p input offset s = Some (r, s') -> within input offset r) ->
  forall lastError s r s',
    (forall le, lastError = Some le ->
                offset <= e_offset le <= Z.max offset (strlen input)) ->
    or_loop l ps input offset lastError s = Some (r, s') ->
    within input offset r.
Proof.
  unfold within.
  induction ps as [|p ps IH]; intros Hps lastError s r s' Hle H; simpl in H.
  - destruct lastError as [le|].
    + specialize (Hle le eq_refl). run_inv. lia.
    + run_inv. lia.
  - apply bind_Some in H. destruct H as (r1 & s1 & Hp & H).
    pose proof (Hps p (or_introl eq_refl) _ _ _ Hp) as Hr1.
    destruct r1 as [o1 v1|o1 e1 fa1]; simpl in Hr1.
    + run_inv. lia.
    + apply bind_Some in H. destruct H as (ex & s2 & Hr & H).
      apply read_Some in Hr. destruct Hr as [-> ->].
      destruct fa1; [run_inv; lia|].
      eapply IH; [| |eassumption].
      * intros q Hq. apply Hps. right. exact Hq.
      * intros le0 Hle0. destruct lastError as [le|].
        -- specialize (Hle le eq_refl).
           destruct (o1 >? e_offset le);
             [|destruct ((o1 =? e_offset le) && is_undefined (s1 !! l))];
             injection Hle0 as <-; simpl; lia.
        -- injection Hle0 as <-. simpl. lia.
Qed.

Lemma star_loop_within {T} (p : Parser T) input :
  (forall offset s r s', p input offset s = Some (r, s') -> within input offset r) ->
  forall fuel ts nextOffset s r s',
    star_loop fuel p input ts nextOffset s = Some (r, s') ->
    within input nextOffset r.
Proof.
  unfold within. intros Hp.
  induction fuel as [|fuel IH]; intros ts nextOffset s r s' H; simpl in H.
  - discriminate.
  - apply bind_Some in H. destruct H as (r1 & s1 & Hr & H).
    apply Hp in Hr. destruct r1 as [o1 v1|o1 e1 fa1]; simpl in Hr.
    + destruct (o1 =? nextOffset) eqn:E.
      * run_inv. lia.
      * apply IH in H. lia.
    + destruct fa1; run_inv; lia.
Qed.

Lemma starConsumed_loop_within {T} (p : Parser T) input :
  (forall offset s r s', p input offset s = Some (r, s') -> within input offset r) ->
  forall fuel nextOffset s r s',
    starConsumed_loop fuel p input nextOffset s = Some (r, s') ->
    within input nextOffset r.
Proof.
  unfold within. intros Hp.
  induction fuel as [|fuel IH]; intros nextOffset s r s' H; simpl in H.
  - discriminate.
  - apply bind_Some in H. destruct H as (r1 & s1 & Hr & H).
    apply Hp in Hr. destruct r1 as [o1 v1|o1 e1 fa1]; simpl in Hr.
    + destruct (o1 =? nextOffset) eqn:E.
      * run_inv. lia.
      * apply IH in H. lia.
    + destruct fa1; run_inv; lia.
Qed.

Lemma Built_within (c : bool) (n : nat) {T} (p : Parser T) (input : jsstring) :
  wf_string input ->
  Built c n p ->
  forall offset s r s', p input offset s = Some (r, s') -> within input offset r.
Proof.
  intros Hwf. induction 1; intros offset s r s' Hrun.
  - unfold token in Hrun. unfold within.
    destruct (decide (slice input offset (offset + strlen tok) = tok)) as [Heq|Hne].
    + apply slice_eq_bound in Heq. run_inv. unfold strlen in *. lia.
    + run_inv. lia.
  - unfold codepoint in Hrun. unfold within.
    destruct (codePointAt input offset) as [cp|] eqn:E; [|run_inv; lia].
    apply codePointAt_Some_bound in E; [|exact Hwf].
    pose proof (lengthFromCodePoint_pos cp). run_inv; lia.
  - unfold codepoints in Hrun. unfold within.
    pose proof (codepoints_loop_ge (length input) isMatch input offset).
    pose proof (codepoints_loop_le input isMatch Hwf (length input) offset).
    destruct expected; run_inv; lia.
  - unfold skipChars in Hrun. run_inv. apply skipChars_loop_within. exact Hwf.
  - unfold start, within in *. run_inv; lia.
  - unfold end_, within in *. run_inv; lia.
  - unfold map in Hrun. run_inv;
      match goal with H : p _ _ _ = Some _ |- _ => apply IHBuilt in H end;
      unfold within in *; simpl in *; lia.
  - unfold filter in Hrun. run_inv;
      match goal with H : p _ _ _ = Some _ |- _ => apply IHBuilt in H end;
      unfold within in *; simpl in *; lia.
  - unfold or in Hrun. eapply or_loop_within; [| |eassumption].
    + intros q Hq s0 r0 s0' Hq'. eapply H0; eassumption.
    + intros le [=].
  - unfold optional in Hrun. run_inv;
      match goal with H : p _ _ _ = Some _ |- _ => apply IHBuilt in H end;
      unfold within in *; simpl in *; lia.
  - unfold star in Hrun. eapply star_loop_within; [|eassumption]. eauto.
  - unfold starConsumed in Hrun. eapply starConsumed_loop_within; [|eassumption]. eauto.
  - unfold then_ in Hrun. run_inv;
      repeat match goal with
        | H : p1 _ _ _ = Some _ |- _ => apply IHBuilt1 in H
        | H : p2 _ _ _ = Some _ |- _ => apply IHBuilt2 in H
        end;
      unfold within in *; simpl in *; lia.
  - unfold recognize in Hrun. run_inv;
      match goal with H : p _ _ _ = Some _ |- _ => apply IHBuilt in H end;
      unfold within in *; simpl in *; lia.
  - unfold peek in Hrun. run_inv;
      match goal with H : p _ _ _ = Some _ |- _ => apply IHBuilt in H end;
      unfold within in *; simpl in *; lia.
  - unfold not in Hrun. run_inv; unfold within; simpl; lia.
  - unfold dispatch in Hrun.
    destruct (codePointAt input (offset + default 0 extraOffset)) as [cp|];
      [|run_inv; unfold within; simpl; lia].
    destruct (mapping !! cp) as [q|] eqn:E.
    + eapply H0; eassumption.
    + destruct otherwise as [q|]; [|run_inv; unfold within; simpl; lia].
      eapply H2; [reflexivity | eassumption].
  - unfold cut in Hrun. run_inv;
      match goal with H : p _ _ _ = Some _ |- _ => apply IHBuilt in H end;
      unfold within in *; simpl in *; lia.
Qed.

(** C8, as the code has it: on a string of 16-bit units and from a starting
    offset within the input, the offset of the result of a parser built from
    the string-oriented library, success or failure, is within the input. *)
Theorem result_offset_in_input (c : bool) (n : nat) {T} (p : Parser T) (input : jsstring)
    (offset : Z) (s s' : store) (r : ParseResult T) :
  Built c n p ->
  wf_string input ->
  0 <= offset <= strlen input ->
  p input offset s = Some (r, s') ->
  0 <= offset_of r <= strlen input.
Proof.
  intros HB Hwf Hoff Hrun.
  pose proof (Built_within c n p input Hwf HB offset s r s' Hrun) as Hw.
  unfold within in Hw. lia.
Qed.

Lemma wf_string_str (t : string) : wf_string (str t).
Proof.
  unfold wf_string, str. apply List.Forall_forall. intros u Hu.
  apply List.in_map_iff in Hu. destruct Hu as (a & <- & _).
  pose proof (nat_ascii_bounded a). lia.
Qed.

Lemma result_offset_in_input_witness :
  or 0%nat [preceded (token (str "a")) (token (str "b")); token (str "c")] (str "ax") 0 ∅
  = Some (Failure 1 [str "b"] false, <[0%nat := [str "b"]]> ∅) /\
  0 <= 1 <= strlen (str "ax").
Proof.
  assert (H : or 0%nat [preceded (token (str "a")) (token (str "b")); token (str "c")]
                (str "ax") 0 ∅
              = Some (Failure 1 [str "b"] false, <[0%nat := [str "b"]]> ∅))
    by (vm_compute; reflexivity).
  split; [exact H|].
  refine (result_offset_in_input false 0%nat _ (str "ax") 0 ∅ _ _ _ _ _ H).
  - constructor. intros q [<-|[<-|[]]].
    + apply Built_preceded; constructor.
    + constructor.
  - apply wf_string_str.
  - vm_compute. split; discriminate.
Defined.

(** C8 as stated fails for a starting offset outside the input: the failure
    of [token] is reported at the starting offset. *)
Lemma token_failure_past_end :
  Built false 0 (token (str "zaz")) /\
  token (str "zaz") (str "zzazz") 7 ∅ = Some (Failure 7 [str "zaz"] false, ∅) /\
  ~ (0 <= 7 <= strlen (str "zzazz")).
Proof.
  split; [constructor|]. split; [vm_compute; reflexivity|].
  vm_compute. intros [_ H]. apply H. reflexivity.
Qed.

(** ** The loop of [codepoints] runs to its end *)

Lemma codePointAt_Some_lt (input : jsstring) (offset cp : Z) :
  codePointAt input offset = Some cp -> 0 <= offset < strlen input.
Proof.
  unfold codePointAt.
  destruct (charCodeAt input offset) as [u|] eqn:E; [|discriminate].
  intros _. apply charCodeAt_Some in E. tauto.
Qed.

Lemma codepoints_loop_enough isMatch (input : jsstring) :
  forall fuel offset,
    (Z.to_nat (strlen input - offset) <= fuel)%nat ->
    codepoints_loop (S fuel) isMatch input offset
    = codepoints_loop fuel isMatch input offset.
Proof.
  induction fuel as [|fuel IH]; intros offset Hf.
  - simpl. destruct (codePointAt input offset) as [cp|] eqn:E; [|reflexivity].
    apply codePointAt_Some_lt in E. lia.
  - change (codepoints_loop (S (S fuel)) isMatch input offset)
      with (match codePointAt input offset with
            | None => offset
            | Some cp =>
                if negb (isMatch cp) then offset
                else codepoints_loop (S fuel) isMatch input
                       (offset + (if cp >? 0xffff then 2 else 1))
            end).
    simpl. destruct (codePointAt input offset) as [cp|] eqn:E; [|reflexivity].
    destruct (negb (isMatch cp)); [reflexivity|].
    apply codePointAt_Some_lt in E.
    apply IH. destruct (cp >? 0xffff); lia.
Qed.

(** The equation of the [while] loop: the fuel [codepoints] gives to its
    loop never runs out. *)
Lemma codepoints_loop_unfold isMatch (input : jsstring) (offset : Z) :
  codepoints_loop (length input) isMatch input offset
  = match codePointAt input offset with
    | None => offset
    | Some cp =>
        if negb (isMatch cp) then offset
        else codepoints_loop (length input) isMatch input
               (offset + (if cp >? 0xffff then 2 else 1))
    end.
Proof.
  destruct (codePointAt input offset) as [cp|] eqn:E.
  - pose proof (codePointAt_Some_lt _ _ _ E) as Hlt. unfold strlen in Hlt.
    destruct (length input) as [|n] eqn:El; [lia|].
    simpl. rewrite E. destruct (negb (isMatch cp)); [reflexivity|].
    symmetry. apply codepoints_loop_enough.
    unfold strlen. rewrite El. destruct (cp >? 0xffff); lia.
  - destruct (length input); simpl; [|rewrite E]; reflexivity.
Qed.

(** ** [star]: the loop stops *)

Lemma star_loop_no_advance {T} (p : Parser T) input fuel ts offset s v s' :
  p input offset s = Some (Success offset v, s') ->
  star_loop (S fuel) p input ts offset s = Some (Success offset (ts ++ [v]), s').
Proof.
  intros H. simpl. unfold bind. rewrite H. rewrite Z.eqb_refl. reflexivity.
Qed.

Lemma star_loop_more_fuel {T} (p : Parser T) input :
  forall fuel ts nextOffset s x,
    star_loop fuel p input ts nextOffset s = Some x ->
    star_loop (S fuel) p input ts nextOffset s = Some x.
Proof.
  induction fuel as [|fuel IH]; intros ts nextOffset s x H; [discriminate|].
  change (star_loop (S (S fuel)) p input ts nextOffset s)
    with (bind (p input nextOffset)
            (fun res =>
               match res with
               | Failure o e fa =>
                   if fa then ret (Failure o e fa) else ret (okWithValue nextOffset ts)
               | Success o v =>
                   if o =? nextOffset then ret (okWithValue nextOffset (ts ++ [v]))
                   else star_loop (S fuel) p input (ts ++ [v]) o
               end) s).
  simpl in H. unfold bind in *.
  destruct (p input nextOffset s) as [[[o v|o e fa] s1]|]; try exact H.
  destruct (o =? nextOffset); [exact H|]. apply IH. exact H.
Qed.

Lemma star_loop_fuel_le {T} (p : Parser T) input fuel fuel' ts nextOffset s x :
  (fuel <= fuel')%nat ->
  star_loop fuel p input ts nextOffset s = Some x ->
  star_loop fuel' p input ts nextOffset s = Some x.
Proof.
  induction 1 as [|m Hle IH]; [auto|].
  intros H. apply star_loop_more_fuel. apply IH. exact H.
Qed.

Lemma star_loop_returns {T} (p : Parser T) input start :
  returns_from p input start ->
  stays_within p input ->
  forall fuel ts nextOffset s,
    start <= nextOffset ->
    (Z.to_nat (strlen input - nextOffset) < fuel)%nat ->
    exists r s', star_loop fuel p input ts nextOffset s = Some (r, s').
Proof.
  intros Hret Hin.
  induction fuel as [|fuel IH]; intros ts nextOffset s Hs Hf; [lia|].
  simpl. unfold bind.
  destruct (p input nextOffset s) as [[[o v|o e fa] s1]|] eqn:E.
  - destruct (Z.eqb_spec o nextOffset) as [->|Hne].
    + unfold ret. eauto.
    + apply Hin in E. apply IH; lia.
  - destruct fa; unfold ret; eauto.
  - exfalso. exact (Hret nextOffset s Hs E).
Qed.

Lemma starConsumed_loop_returns {T} (p : Parser T) input start :
  returns_from p input start ->
  stays_within p input ->
  forall fuel nextOffset s,
    start <= nextOffset ->
    (Z.to_nat (strlen input - nextOffset) < fuel)%nat ->
    exists r s', starConsumed_loop fuel p input nextOffset s = Some (r, s').
Proof.
  intros Hret Hin.
  induction fuel as [|fuel IH]; intros nextOffset s Hs Hf; [lia|].
  simpl. unfold bind.
  destruct (p input nextOffset s) as [[[o v|o e fa] s1]|] eqn:E.
  - destruct (Z.eqb_spec o nextOffset) as [->|Hne].
    + unfold ret. eauto.
    + apply Hin in E. apply IH; lia.
  - destruct fa; unfold ret; eauto.
  - exfalso. exact (Hret nextOffset s Hs E).
Qed.

Lemma or_loop_returns {T} l (ps : list (Parser T)) input offset :
  (forall p, In p ps -> forall s, p input offset s <> None) ->
  forall lastError s, or_loop l ps input offset lastError s <> None.
Proof.
  induction ps as [|p ps IH]; intros Hps lastError s; simpl.
  - unfold bind, read, write, ret. destruct lastError; discriminate.
  - unfold bind at 1.
    destruct (p input offset s) as [[[o v|o e fa] s1]|] eqn:E.
    + discriminate.
    + unfold bind, read. destruct fa; [discriminate|].
      apply IH. intros q Hq. apply Hps. right. exact Hq.
    + exfalso. exact (Hps p (or_introl eq_refl) s E).
Qed.

Lemma Built_stays_within (c : bool) (n : nat) {T} (p : Parser T) (input : jsstring) :
  wf_string input -> Built c n p -> stays_within p input.
Proof.
  intros Hwf HB off s0 o v s0' Hrun. split.
  - eapply Built_forward; eassumption.
  - pose proof (Built_within c n p input Hwf HB off s0 _ s0' Hrun) as Hw.
    unfold within in Hw. simpl in Hw. lia.
Qed.

(** A parser built from the library returns, provided the loops in it have
    more fuel than there are units from the starting offset to the end of
    the input. *)
Lemma Built_returns (c : bool) (n : nat) {T} (p : Parser T) (input : jsstring) :
  wf_string input ->
  Built c n p ->
  forall offset s,
    (Z.to_nat (strlen input - offset) < n)%nat ->
    p input offset s <> None.
Proof.
  intros Hwf. induction 1; intros offset s Hn.
  - unfold token. destruct (decide _); discriminate.
  - unfold codepoint. destruct (codePointAt input offset) as [cp|]; [|discriminate].
    destruct (negb (isMatch cp)); discriminate.
  - unfold codepoints. destruct expected; [|discriminate].
    destruct (_ =? _); discriminate.
  - unfold skipChars. discriminate.
  - unfold start. destruct (offset =? 0); discriminate.
  - unfold end_. destruct (strlen input =? offset); discriminate.
  - unfold map, bind. specialize (IHBuilt offset s Hn).
    destruct (p input offset s) as [[[o v|o e fa] s1]|]; [discriminate..|congruence].
  - unfold filter, bind. specialize (IHBuilt offset s Hn).
    destruct (p input offset s) as [[[o v|o e fa] s1]|]; [|discriminate|congruence].
    destruct (negb (pred v)); discriminate.
  - unfold or. apply or_loop_returns. intros q Hq s0. apply H0; assumption.
  - unfold optional, bind. specialize (IHBuilt offset s Hn).
    destruct (p input offset s) as [[[o v|o e fa] s1]|]; [discriminate| |congruence].
    destruct (negb fa); discriminate.
  - unfold star.
    destruct (star_loop_returns p input offset) with (fuel := fuel) (ts := @nil T)
      (nextOffset := offset) (s := s) as (r & s' & Hr); try lia.
    + intros o s0 Ho. apply IHBuilt. lia.
    + eapply Built_stays_within; eassumption.
    + rewrite Hr. discriminate.
  - unfold starConsumed.
    destruct (starConsumed_loop_returns p input offset) with (fuel := fuel)
      (nextOffset := offset) (s := s) as (r & s' & Hr); try lia.
    + intros o s0 Ho. apply IHBuilt. lia.
    + eapply Built_stays_within; eassumption.
    + rewrite Hr. discriminate.
  - unfold then_, bind. specialize (IHBuilt1 offset s Hn).
    destruct (p1 input offset s) as [[[o1 v1|o1 e1 fa1] s1]|] eqn:E1;
      [|discriminate|congruence].
    apply (Built_forward c n p1 H) in E1.
    assert (Hn1 : (Z.to_nat (strlen input - o1) < n)%nat) by lia.
    specialize (IHBuilt2 o1 s1 Hn1).
    destruct (p2 input o1 s1) as [[[o2 v2|o2 e2 fa2] s2]|]; [discriminate..|congruence].
  - unfold recognize, bind. specialize (IHBuilt offset s Hn).
    destruct (p input offset s) as [[[o v|o e fa] s1]|]; [discriminate..|congruence].
  - unfold peek, bind. specialize (IHBuilt offset s Hn).
    destruct (p input offset s) as [[[o v|o e fa] s1]|]; [discriminate..|congruence].
  - unfold not, bind. specialize (IHBuilt offset s Hn).
    destruct (p input offset s) as [[[o v|o e fa] s1]|]; [discriminate..|congruence].
  - unfold dispatch.
    destruct (codePointAt input (offset + default 0 extraOffset)) as [cp|]; [|discriminate].
    destruct (mapping !! cp) as [q|] eqn:E.
    + eapply H0; eassumption.
    + destruct otherwise as [q|]; [|discriminate]. eapply H2; [reflexivity|assumption].
  - unfold cut, bind. specialize (IHBuilt offset s Hn).
    destruct (p input offset s) as [[[o v|o e fa] s1]|]; [discriminate..|congruence].
Qed.

(** C3, as the code has it.  An iteration that succeeds without advancing
    ends the loop once its value is recorded, so that a parser that succeeds
    without consuming at the starting offset gives exactly one recorded
    iteration.  The loop ends for every parser that returns on the input,
    from the starting offset on, and whose successes move neither backward
    nor past the end of the input: from [strlen input - offset] iterations
    on, the result no more depends on the fuel.  The parsers built from the
    library are such parsers on strings of 16-bit units. *)
Theorem star_stops {T} (p : Parser T) (input : jsstring) (offset : Z) (s : store) :
  (forall fuel ts v s',
      p input offset s = Some (Success offset v, s') ->
      star_loop (S fuel) p input ts offset s = Some (Success offset (ts ++ [v]), s')) /\
  (forall fuel v s',
      p input offset s = Some (Success offset v, s') ->
      star (S fuel) p input offset s = Some (Success offset [v], s')) /\
  (returns_from p input offset ->
   stays_within p input ->
   exists r s', forall fuel,
       (Z.to_nat (strlen input - offset) < fuel)%nat ->
       star fuel p input offset s = Some (r, s')) /\
  (forall c n,
      Built c n p ->
      wf_string input ->
      (Z.to_nat (strlen input - offset) < n)%nat ->
      returns_from p input offset /\ stays_within p input).
Proof.
  split; [|split; [|split]].
  - intros fuel ts v s' H. apply star_loop_no_advance. exact H.
  - intros fuel v s' H. unfold star. apply (star_loop_no_advance p input fuel [] offset s v s' H).
  - intros Hret Hin.
    destruct (star_loop_returns p input offset Hret Hin
                (S (Z.to_nat (strlen input - offset))) [] offset s) as (r & s' & H);
      [lia | lia |].
    exists r, s'. intros fuel Hf. unfold star.
    eapply star_loop_fuel_le; [|exact H]. lia.
  - intros c n HB Hwf Hn. split.
    + intros o s0 Ho. eapply Built_returns; [exact Hwf | exact HB | lia].
    + eapply Built_stays_within; eassumption.
Qed.

Lemma star_stops_witness :
  star 1 (peek (token (str "a"))) (str "a") 0 ∅ = Some (Success 0 [str "a"], ∅) /\
  (exists r s', forall fuel,
      (Z.to_nat (strlen (str "a") - 0) < fuel)%nat ->
      star fuel (peek (token (str "a"))) (str "a") 0 ∅ = Some (r, s')).
Proof.
  pose proof (star_stops (peek (token (str "a"))) (str "a") 0 ∅) as (_ & H2 & H3 & H4).
  split.
  - apply (H2 0%nat (str "a") ∅). vm_compute; reflexivity.
  - destruct (H4 false 2%nat) as [Hret Hin].
    + repeat constructor.
    + apply wf_string_str.
    + vm_compute. lia.
    + apply H3; assumption.
Defined.

(** C3 as stated fails twice.  [optional (token "a")] can succeed without
    consuming input, as it does at offset 1 of "ab", and yet [star] records
    two iterations of it on "ab".  And [star] has no result, whatever the
    fuel, for a parser that moves back and forth between two offsets. *)
Lemma star_more_than_one_iteration :
  optional (token (str "a")) (str "ab") 1 ∅ = Some (Success 1 None, ∅) /\
  star 5 (optional (token (str "a"))) (str "ab") 0 ∅
  = Some (Success 1 [Some (str "a"); None], ∅) /\
  (forall fuel ts offset s, star_loop fuel flip [] ts offset s = None).
Proof.
  split; [vm_compute; reflexivity|]. split; [vm_compute; reflexivity|].
  induction fuel as [|fuel IH]; intros ts offset s; [reflexivity|].
  simpl. unfold bind, flip at 1, ret, ok, okWithValue.
  destruct (Z.eqb_spec offset 0) as [->|Hne].
  - simpl. apply IH.
  - destruct (Z.eqb_spec 0 offset) as [E|_]; [congruence|]. apply IH.
Qed.

(** ** Fatal failures: where they come from and how they travel *)

Lemma or_loop_not_fatal {T} l (ps : list (Parser T)) input offset :
  (forall p, In p ps -> forall s r s',
      p input offset s = Some (r, s') -> is_fatal r = false) ->
  forall lastError s r s',
    (forall le, lastError = Some le -> e_fatal le = false) ->
    or_loop l ps input offset lastError s = Some (r, s') ->
    is_fatal r = false.
Proof.
  induction ps as [|p ps IH]; intros Hps lastError s r s' Hle H; simpl in H.
  - destruct lastError as [le|].
    + specialize (Hle le eq_refl). run_inv. exact Hle.
    + run_inv. reflexivity.
  - apply bind_Some in H. destruct H as (r1 & s1 & Hp & H).
    pose proof (Hps p (or_introl eq_refl) _ _ _ Hp) as Hr1.
    destruct r1 as [o1 v1|o1 e1 fa1]; simpl in Hr1.
    + run_inv. reflexivity.
    + subst fa1. apply bind_Some in H. destruct H as (ex & s2 & Hr & H).
      apply read_Some in Hr. destruct Hr as [-> ->].
      eapply IH; [| |eassumption].
      * intros q Hq. apply Hps. right. exact Hq.
      * intros le0 Hle0. destruct lastError as [le|].
        -- specialize (Hle le eq_refl).
           destruct (o1 >? e_offset le);
             [|destruct ((o1 =? e_offset le) && is_undefined (s1 !! l))];
             injection Hle0 as <-; simpl; auto.
        -- injection Hle0 as <-. reflexivity.
Qed.

Lemma star_loop_not_fatal {T} (p : Parser T) input :
  (forall offset s r s', p input offset s = Some (r, s') -> is_fatal r = false) ->
  forall fuel ts nextOffset s r s',
    star_loop fuel p input ts nextOffset s = Some (r, s') -> is_fatal r = false.
Proof.
  intros Hp. induction fuel as [|fuel IH]; intros ts nextOffset s r s' H; simpl in H.
  - discriminate.
  - apply bind_Some in H. destruct H as (r1 & s1 & Hr & H).
    apply Hp in Hr. destruct r1 as [o1 v1|o1 e1 fa1]; simpl in Hr.
    + destruct (o1 =? nextOffset); [run_inv; reflexivity | eapply IH; eassumption].
    + subst fa1. run_inv. reflexivity.
Qed.

Lemma starConsumed_loop_not_fatal {T} (p : Parser T) input :
  (forall offset s r s', p input offset s = Some (r, s') -> is_fatal r = false) ->
  forall fuel nextOffset s r s',
    starConsumed_loop fuel p input nextOffset s = Some (r, s') -> is_fatal r = false.
Proof.
  intros Hp. induction fuel as [|fuel IH]; intros nextOffset s r s' H; simpl in H.
  - discriminate.
  - apply bind_Some in H. destruct H as (r1 & s1 & Hr & H).
    apply Hp in Hr. destruct r1 as [o1 v1|o1 e1 fa1]; simpl in Hr.
    + destruct (o1 =? nextOffset); [run_inv; reflexivity | eapply IH; eassumption].
    + subst fa1. run_inv. reflexivity.
Qed.

Lemma skipChars_loop_not_fatal (i : nat) input offset :
  is_fatal (skipChars_loop i input offset) = false.
Proof.
  revert offset. induction i as [|i IH]; intros offset; simpl; [reflexivity|].
  destruct (codePointAt input offset); [apply IH | reflexivity].
Qed.

Ltac by_not_fatal IH :=
  match goal with
  | H : _ _ _ _ = Some _ |- _ =>
      apply IH in H; simpl in H; (exact H || discriminate H || congruence)
  end.

Lemma Built_not_fatal (c : bool) (n : nat) {T} (p : Parser T) :
  Built c n p ->
  c = false ->
  forall input offset s r s', p input offset s = Some (r, s') -> is_fatal r = false.
Proof.
  induction 1; intros Hc input offset s r s' Hrun.
  - unfold token in Hrun. run_inv; reflexivity.
  - unfold codepoint in Hrun.
    destruct (codePointAt input offset); run_inv; reflexivity.
  - unfold codepoints in Hrun. destruct expected; run_inv; reflexivity.
  - unfold skipChars in Hrun. run_inv. apply skipChars_loop_not_fatal.
  - unfold start in Hrun. run_inv; reflexivity.
  - unfold end_ in Hrun. run_inv; reflexivity.
  - unfold map in Hrun. specialize (IHBuilt Hc). run_inv; try reflexivity.
    by_not_fatal IHBuilt.
  - unfold filter in Hrun. specialize (IHBuilt Hc). run_inv; try reflexivity.
    + destruct (default false fatal); [|reflexivity].
      match goal with H : true = true -> _ |- _ => discriminate (H eq_refl) end.
    + by_not_fatal IHBuilt.
  - unfold or in Hrun. eapply or_loop_not_fatal; [| |eassumption].
    + intros q Hq s0 r0 s0' Hq'. eapply H0; eassumption.
    + intros le [=].
  - unfold optional in Hrun. specialize (IHBuilt Hc). run_inv; try reflexivity.
    by_not_fatal IHBuilt.
  - unfold star in Hrun. eapply star_loop_not_fatal; [|eassumption]. eauto.
  - unfold starConsumed in Hrun. eapply starConsumed_loop_not_fatal; [|eassumption]. eauto.
  - unfold then_ in Hrun. specialize (IHBuilt1 Hc). specialize (IHBuilt2 Hc).
    run_inv; try reflexivity.
    + by_not_fatal IHBuilt2.
    + by_not_fatal IHBuilt1.
  - unfold recognize in Hrun. specialize (IHBuilt Hc). run_inv; try reflexivity.
    by_not_fatal IHBuilt.
  - unfold peek in Hrun. specialize (IHBuilt Hc). run_inv; try reflexivity.
    by_not_fatal IHBuilt.
  - unfold not in Hrun. run_inv; reflexivity.
  - unfold dispatch in Hrun.
    destruct (codePointAt input (offset + default 0 extraOffset)) as [cp|];
      [|run_inv; reflexivity].
    destruct (mapping !! cp) as [q|] eqn:E.
    + eapply H0; eassumption.
    + destruct otherwise as [q|]; [|run_inv; reflexivity].
      eapply H2; [reflexivity | exact Hc | eassumption].
  - congruence.
Qed.

Ltac pass_fatal :=
  intros;
  repeat match goal with
    | H : ?p ?i ?o ?s = Some _ |- context [bind (?p ?i ?o) _ ?s] =>
        unfold bind at 1; rewrite H; simpl
    end;
  try reflexivity.

Lemma then_passes_fatal {T1 T2 T} (q : Parser T2) (join : T1 -> T2 -> T) :
  passes_fatal (fun p : Parser T1 => then_ p q join).
Proof. unfold passes_fatal, then_. pass_fatal. Qed.

Lemma then_passes_fatal_second {T1 T2 T} (join : T1 -> T2 -> T) :
  passes_fatal_second (fun (p : Parser T1) (q : Parser T2) => then_ p q join).
Proof. unfold passes_fatal_second, then_. pass_fatal. Qed.

Lemma star_loop_passes_fatal {T} (p : Parser T) input fuel ts nextOffset s o e s' :
  p input nextOffset s = Some (Failure o e true, s') ->
  star_loop (S fuel) p input ts nextOffset s = Some (Failure o e true, s').
Proof. simpl. pass_fatal. Qed.

Lemma starConsumed_loop_passes_fatal {T} (p : Parser T) input fuel nextOffset s o e s' :
  p input nextOffset s = Some (Failure o e true, s') ->
  starConsumed_loop (S fuel) p input nextOffset s = Some (Failure o e true, s').
Proof. simpl. pass_fatal. Qed.

(** C5, as the code has it.  A parser built from the string-oriented
    library without [cut], without [delimited] with [cutAfterOpen] and
    without [filter] called with [fatal = true] never returns a fatal
    failure.  The fatal failure of an operand is the result of [map],
    [consume], [filter], [filterUndefined], [recognize], [peek], [cut],
    [complete], of [then], [plus], [plusConsumed], [preceded], [followed],
    [delimited] and [except] in either position they run it, of [dispatch]
    for the parser it selects, and of [or], [optional], [star] and
    [starConsumed], which stop on it.  [not] and the guard of [except] turn
    any failure of their operand, fatal or not, into a success. *)
Theorem fatal_failures_origin_and_travel :
  (forall n T (p : Parser T), Built false n p ->
     forall input offset s r s', p input offset s = Some (r, s') -> is_fatal r = false) /\
  (forall T U (f : T -> U), passes_fatal (fun p : Parser T => map p f)) /\
  (forall T, passes_fatal (@consume T)) /\
  (forall T pred expected fatal,
      passes_fatal (fun p : Parser T => filter p pred expected fatal)) /\
  (forall T, passes_fatal (@filterUndefined T)) /\
  (forall T, passes_fatal (@recognize T)) /\
  (forall T, passes_fatal (@peek T)) /\
  (forall T, passes_fatal (@cut T)) /\
  (forall T, passes_fatal (@complete T)) /\
  (forall T1 T2 T (q : Parser T2) (join : T1 -> T2 -> T),
      passes_fatal (fun p : Parser T1 => then_ p q join)) /\
  (forall T1 T2 T (join : T1 -> T2 -> T),
      passes_fatal_second (fun (p : Parser T1) (q : Parser T2) => then_ p q join)) /\
  (forall T fuel, passes_fatal (@plus T fuel)) /\
  (forall T fuel, passes_fatal (@plusConsumed T fuel)) /\
  (forall T U (q : Parser U), passes_fatal (fun p : Parser T => preceded p q)) /\
  (forall T U, passes_fatal_second (@preceded T U)) /\
  (forall T U (q : Parser U), passes_fatal (fun p : Parser T => followed p q)) /\
  (forall T U, passes_fatal_second (@followed T U)) /\
  (forall TO T TC (inner : Parser T) (close : Parser TC) cutAfterOpen,
      passes_fatal (fun open : Parser TO => delimited open inner close cutAfterOpen)) /\
  (forall TO T TC (close : Parser TC) cutAfterOpen,
      passes_fatal_second
        (fun (open : Parser TO) (inner : Parser T) =>
           delimited open inner close cutAfterOpen)) /\
  (forall T U (p : Parser T) (q : Parser U) expected input offset s oq eq_ fq sq o e s',
      q input offset s = Some (Failure oq eq_ fq, sq) ->
      p input offset sq = Some (Failure o e true, s') ->
      except p q expected input offset s = Some (Failure o e true, s')) /\
  (forall T (mapping : gmap Z (Parser T)) otherwise extraOffset expected input offset cp p,
      codePointAt input (offset + default 0 extraOffset) = Some cp ->
      mapping !! cp = Some p ->
      dispatch mapping otherwise extraOffset expected input offset = p input offset) /\
  (forall T (mapping : gmap Z (Parser T)) p extraOffset expected input offset cp,
      codePointAt input (offset + default 0 extraOffset) = Some cp ->
      mapping !! cp = None ->
      dispatch mapping (Some p) extraOffset expected input offset = p input offset) /\
  (forall T l (ps : list (Parser T)), passes_fatal (fun p : Parser T => or l (p :: ps))) /\
  (forall T, passes_fatal (fun p : Parser T => optional p)) /\
  (forall T (p : Parser T) input fuel ts nextOffset s o e s',
      p input nextOffset s = Some (Failure o e true, s') ->
      star_loop (S fuel) p input ts nextOffset s = Some (Failure o e true, s')) /\
  (forall T (p : Parser T) input fuel nextOffset s o e s',
      p input nextOffset s = Some (Failure o e true, s') ->
      starConsumed_loop (S fuel) p input nextOffset s = Some (Failure o e true, s')) /\
  (forall T (p : Parser T) expected input offset s o e fa s',
      p input offset s = Some (Failure o e fa, s') ->
      not p expected input offset s = Some (Success offset tt, s')).
Proof.
  repeat match goal with |- _ /\ _ => split end.
  - intros n T p HB input offset s r s' H.
    eapply Built_not_fatal; [exact HB | reflexivity | exact H].
  - intros T U f. unfold passes_fatal, map. pass_fatal.
  - intros T. unfold passes_fatal, consume, map. pass_fatal.
  - intros T pred expected fatal. unfold passes_fatal, filter. pass_fatal.
  - intros T. unfold passes_fatal, filterUndefined, map. pass_fatal.
  - intros T. unfold passes_fatal, recognize. pass_fatal.
  - intros T. unfold passes_fatal, peek. pass_fatal.
  - intros T. unfold passes_fatal, cut. pass_fatal.
  - intros T. unfold complete. apply then_passes_fatal.
  - intros. apply then_passes_fatal.
  - intros. apply then_passes_fatal_second.
  - intros T fuel p input offset s o e s' H.
    exact (then_passes_fatal (star fuel p) _ p input offset s o e s' H).
  - intros T fuel p input offset s o e s' H.
    exact (then_passes_fatal (starConsumed fuel p) _ p input offset s o e s' H).
  - intros T U q. unfold preceded. apply then_passes_fatal.
  - intros T U. unfold preceded. apply then_passes_fatal_second.
  - intros T U q. unfold followed. apply then_passes_fatal.
  - intros T U. unfold followed. apply then_passes_fatal_second.
  - intros TO T TC inner close cutAfterOpen. unfold delimited, preceded.
    apply then_passes_fatal.
  - intros TO T TC close cutAfterOpen p q input offset s o1 v1 s1 o e s' Hp Hq.
    unfold delimited, preceded.
    apply (then_passes_fatal_second second p _ input offset s o1 v1 s1 o e s' Hp).
    destruct (default false cutAfterOpen).
    + unfold cut, followed. unfold bind at 1.
      rewrite (then_passes_fatal close first q input o1 s1 o e s' Hq). reflexivity.
    + unfold followed. apply then_passes_fatal. exact Hq.
  - intros T U p q expected input offset s oq eq_ fq sq o e s' Hq Hp.
    unfold except, preceded, then_, not, bind. rewrite Hq. simpl. rewrite Hp.
    reflexivity.
  - intros T mapping otherwise extraOffset expected input offset cp p Hcp Hm.
    unfold dispatch. rewrite Hcp, Hm. reflexivity.
  - intros T mapping p extraOffset expected input offset cp Hcp Hm.
    unfold dispatch. rewrite Hcp. unfold Parser in *. rewrite Hm. reflexivity.
  - intros T l ps p input offset s o e s' Hp. unfold or. simpl. pass_fatal.
  - intros T. unfold passes_fatal, optional. pass_fatal.
  - intros. apply star_loop_passes_fatal. assumption.
  - intros. apply starConsumed_loop_passes_fatal. assumption.
  - intros T p expected input offset s o e fa s' Hp. unfold not. pass_fatal.
Qed.

Lemma fatal_failures_origin_and_travel_witness :
  is_fatal (Failure 7 [str "zaz"] false : ParseResult jsstring) = false /\
  map (cut (token (str "a"))) (fun v => v ++ v) (str "b") 0 ∅
  = Some (Failure 0 [str "a"] true, ∅).
Proof.
  pose proof fatal_failures_origin_and_travel as (H1 & H2 & _).
  split.
  - apply (H1 0%nat jsstring (token (str "zaz")) (B_token false 0%nat (str "zaz"))
              (str "zzazz") 7 ∅ _ ∅).
    vm_compute; reflexivity.
  - apply (H2 jsstring jsstring (fun v => v ++ v) (cut (token (str "a")))).
    vm_compute; reflexivity.
Defined.

(** C5 as stated fails twice.  [filter] called with [fatal = true] returns a
    fatal failure where neither [cut] nor [delimited] is used, and [not]
    turns the fatal failure of its operand into a success. *)
Lemma fatal_from_filter_and_lost_in_not :
  Built false 0 (token (str "a")) /\
  filter (token (str "a")) (fun _ => false) [str "x"] (Some true) (str "a") 0 ∅
  = Some (Failure 0 [str "x"] true, ∅) /\
  cut (token (str "a")) (str "b") 0 ∅ = Some (Failure 0 [str "a"] true, ∅) /\
  not (cut (token (str "a"))) [str "not a"] (str "b") 0 ∅ = Some (Success 0 tt, ∅).
Proof.
  split; [constructor|]. repeat split; vm_compute; reflexivity.
Qed.

(** ** The UTF-8 decoder *)

Lemma byte_forall (P : Z -> bool) :
  forallb P (List.map Z.of_nat (seq 0 256)) = true ->
  forall b, 0 <= b < 256 -> P b = true.
Proof.
  intros H b Hb. rewrite List.forallb_forall in H. apply H.
  apply List.in_map_iff. exists (Z.to_nat b). split; [lia|].
  apply List.in_seq. lia.
Qed.

(** The four patterns of a leading byte exclude one another. *)
Lemma lead_exclusive (b : Z) :
  0 <= b < 256 ->
  (lead2 b = true -> lead1 b = false) /\
  (lead3 b = true -> lead1 b = false /\ lead2 b = false) /\
  (lead4 b = true -> lead1 b = false /\ lead2 b = false /\ lead3 b = false).
Proof.
  intros Hb.
  pose proof (byte_forall
    (fun b => implb (lead2 b) (negb (lead1 b))
              && implb (lead3 b) (negb (lead1 b) && negb (lead2 b))
              && implb (lead4 b) (negb (lead1 b) && negb (lead2 b) && negb (lead3 b)))
    ltac:(vm_compute; reflexivity) b Hb) as H.
  simpl in H.
  destruct (lead1 b), (lead2 b), (lead3 b), (lead4 b); simpl in H;
    try discriminate H; repeat split; intros; congruence.
Qed.

Lemma toInt32_byte (b : Z) : 0 <= b < 256 -> toInt32 (Some b) = b.
Proof.
  intros Hb. unfold toInt32. rewrite Z.mod_small; lia.
Qed.

(** Past the end of the input the decoder finds the value 0 in [cp] and
    returns it as a code point. *)
Lemma getUtf8Codepoint_past_end (input : bytes) (offset : Z) :
  byteAt input offset = None -> getUtf8Codepoint input offset = Normal (Some 0).
Proof.
  intros H. unfold getUtf8Codepoint. rewrite H. reflexivity.
Qed.

(** At the end of the input the loop of [codepointsUtf8] therefore goes on
    for as long as the predicate accepts the code point 0. *)
Lemma codepointsUtf8_loop_past_end (isMatch : Z -> bool) (input : bytes) :
  isMatch 0 = true ->
  forall fuel offset,
    strlen input <= offset ->
    codepointsUtf8_loop fuel isMatch input offset = None.
Proof.
  intros H0. induction fuel as [|fuel IH]; intros offset Hoff; [reflexivity|].
  simpl. rewrite getUtf8Codepoint_past_end.
  - rewrite H0. simpl. apply IH. unfold getUtf8Length. simpl. lia.
  - unfold byteAt. destruct (offset <? 0); [reflexivity|].
    apply lookup_ge_None. unfold strlen in Hoff. lia.
Qed.

Lemma getUtf8Length_pos (cp : Z) : 1 <= getUtf8Length cp <= 4.
Proof.
  unfold getUtf8Length.
  destruct (cp <=? 0x7f), (cp <=? 0x7ff), (cp <=? 0xffff); lia.
Qed.

Lemma skipCharsUtf8_loop_ge (i : nat) (input : bytes) :
  forall offset o v,
    skipCharsUtf8_loop i input offset = Normal (Success o v) -> offset <= o.
Proof.
  induction i as [|i IH]; intros offset o v; simpl.
  - intros [= <- _]. lia.
  - destruct (getUtf8Codepoint input offset) as [[cp|]|]; try discriminate.
    intros H. apply IH in H. pose proof (getUtf8Length_pos cp). lia.
Qed.

Lemma tokenUtf8_loop_ge (encoded : list Z) tok (input : bytes) initialOffset :
  forall offset o v,
    tokenUtf8_loop encoded tok input initialOffset offset = Normal (Success o v) ->
    offset <= o.
Proof.
  induction encoded as [|c encoded IH]; intros offset o v; simpl.
  - intros [= <- _]. lia.
  - destruct (getUtf8Codepoint input offset) as [[cp|]|]; try discriminate.
    destruct (negb (cp =? c)); [discriminate|].
    intros H. apply IH in H. pose proof (getUtf8Length_pos cp). lia.
Qed.

Lemma codepointsUtf8_loop_ge (fuel : nat) isMatch (input : bytes) :
  forall offset o,
    codepointsUtf8_loop fuel isMatch input offset = Some (Normal o) -> offset <= o.
Proof.
  induction fuel as [|fuel IH]; intros offset o; simpl; [discriminate|].
  destruct (getUtf8Codepoint input offset) as [[cp|]|]; try discriminate.
  - destruct (negb (isMatch cp)); [intros [= <-]; lia|].
    intros H. apply IH in H. pose proof (getUtf8Length_pos cp). lia.
  - intros [= <-]. lia.
Qed.

(** X28: the primitives of the byte-oriented variant do not move backward
    either: a success of [codepointUtf8], [skipCharsUtf8], [tokenUtf8] or
    [codepointsUtf8] is at the offset given or after it, on every array and
    from every integer offset. *)
Lemma utf8_primitives_forward (input : bytes) (offset o : Z) :
  (forall isMatch expected v,
      codepointUtf8 isMatch expected input offset = Normal (Success o v) -> offset <= o) /\
  (forall k v, skipCharsUtf8 k input offset = Normal (Success o v) -> offset <= o) /\
  (forall tok v, tokenUtf8 tok input offset = Normal (Success o v) -> offset <= o) /\
  (forall fuel isMatch expected v,
      codepointsUtf8 fuel isMatch expected input offset = Some (Normal (Success o v)) ->
      offset <= o).
Proof.
  repeat split.
  - intros isMatch expected v. unfold codepointUtf8.
    destruct (getUtf8Codepoint input offset) as [[cp|]|]; try discriminate.
    destruct (negb (isMatch cp)); [discriminate|].
    intros [= <- _]. pose proof (getUtf8Length_pos cp). lia.
  - intros k v. unfold skipCharsUtf8. apply skipCharsUtf8_loop_ge.
  - intros tok v. unfold tokenUtf8. apply tokenUtf8_loop_ge.
  - intros fuel isMatch expected v. unfold codepointsUtf8.
    destruct (codepointsUtf8_loop fuel isMatch input offset) as [[o'|]|] eqn:E;
      try discriminate.
    apply codepointsUtf8_loop_ge in E.
    destruct expected; [destruct (o' =? offset); [discriminate|]|];
      intros [= <- _]; exact E.
Qed.

Lemma utf8_primitives_forward_witness :
  codepointUtf8 (fun _ => true) [] [0xc3; 0xa9] 0 = Normal (Success 2 tt) /\ 0 <= 2.
Proof.
  split; [vm_compute; reflexivity|].
  destruct (utf8_primitives_forward [0xc3; 0xa9] 0 2) as [H _].
  apply (H (fun _ => true) [] tt). vm_compute; reflexivity.
Defined.

(** C9, as the code has it, at an offset that holds a byte.  The leading
    byte selects a sequence of one to four bytes by its bit pattern; the low
    six bits of the following bytes are used whatever their two high bits
    are; a byte missing among those the decoder reads gives no code point,
    at which [codepointUtf8], [skipCharsUtf8] and [tokenUtf8] fail without
    being fatal and the loop of [codepointsUtf8] stops; a leading byte of no
    pattern throws once three bytes follow it. *)
Theorem getUtf8Codepoint_cases (input : bytes) (offset b0 : Z) :
  byteAt input offset = Some b0 ->
  0 <= b0 < 256 ->
  (lead1 b0 = true -> getUtf8Codepoint input offset = Normal (Some b0)) /\
  (lead1 b0 = false -> byteAt input (offset + 1) = None ->
   getUtf8Codepoint input offset = Normal None) /\
  (lead2 b0 = true -> forall b1,
      byteAt input (offset + 1) = Some b1 ->
      getUtf8Codepoint input offset
      = Normal (Some (Z.lor (Z.shiftl (Z.land b0 0x1f) 6) (Z.land b1 0x3f)))) /\
  (lead1 b0 = false -> lead2 b0 = false -> forall b1,
      byteAt input (offset + 1) = Some b1 ->
      byteAt input (offset + 2) = None ->
      getUtf8Codepoint input offset = Normal None) /\
  (lead3 b0 = true -> forall b1 b2,
      byteAt input (offset + 1) = Some b1 ->
      byteAt input (offset + 2) = Some b2 ->
      getUtf8Codepoint input offset
      = Normal (Some (Z.lor (Z.lor (Z.shiftl (Z.land b0 0x0f) 12)
                                   (Z.shiftl (Z.land b1 0x3f) 6))
                            (Z.land b2 0x3f)))) /\
  (lead1 b0 = false -> lead2 b0 = false -> lead3 b0 = false -> forall b1 b2,
      byteAt input (offset + 1) = Some b1 ->
      byteAt input (offset + 2) = Some b2 ->
      byteAt input (offset + 3) = None ->
      getUtf8Codepoint input offset = Normal None) /\
  (lead4 b0 = true -> forall b1 b2 b3,
      byteAt input (offset + 1) = Some b1 ->
      byteAt input (offset + 2) = Some b2 ->
      byteAt input (offset + 3) = Some b3 ->
      getUtf8Codepoint input offset
      = Normal (Some (Z.lor (Z.lor (Z.lor (Z.shiftl (Z.land b0 0x0f) 18)
                                          (Z.shiftl (Z.land b1 0x3f) 12))
                                   (Z.shiftl (Z.land b2 0x3f) 6))
                            (Z.land b3 0x3f)))) /\
  (lead1 b0 = false -> lead2 b0 = false -> lead3 b0 = false -> lead4 b0 = false ->
   forall b1 b2 b3,
      byteAt input (offset + 1) = Some b1 ->
      byteAt input (offset + 2) = Some b2 ->
      byteAt input (offset + 3) = Some b3 ->
      getUtf8Codepoint input offset = Throw "invalid utf-8 character") /\
  (getUtf8Codepoint input offset = Normal None ->
   (forall isMatch expected,
       codepointUtf8 isMatch expected input offset
       = Normal (Failure offset expected false)) /\
   (forall i,
       skipCharsUtf8_loop (S i) input offset
       = Normal (Failure offset [str "any character"] false)) /\
   (forall c encoded tok initialOffset,
       tokenUtf8_loop (c :: encoded) tok input initialOffset offset
       = Normal (Failure initialOffset [tok] false)) /\
   (forall fuel isMatch,
       codepointsUtf8_loop (S fuel) isMatch input offset = Some (Normal offset))).
Proof.
  intros H0 Hb.
  pose proof (lead_exclusive b0 Hb) as (E2 & E3 & E4).
  unfold getUtf8Codepoint. rewrite H0, (toInt32_byte b0 Hb).
  fold (lead1 b0) (lead2 b0) (lead3 b0) (lead4 b0).
  repeat match goal with |- _ /\ _ => split end.
  - intros ->. reflexivity.
  - intros -> ->. reflexivity.
  - intros L2 b1 ->. rewrite (E2 L2), L2. reflexivity.
  - intros -> -> b1 -> ->. reflexivity.
  - intros L3 b1 b2 -> ->. destruct (E3 L3) as [-> ->]. rewrite L3. reflexivity.
  - intros -> -> -> b1 b2 -> -> ->. reflexivity.
  - intros L4 b1 b2 b3 -> -> ->. destruct (E4 L4) as (-> & -> & ->). rewrite L4.
    reflexivity.
  - intros -> -> -> -> b1 b2 b3 -> -> ->. reflexivity.
  - intros H. fold (lead1 b0) (lead2 b0) (lead3 b0) (lead4 b0) in H.
    assert (Hg : getUtf8Codepoint input offset = Normal None).
    { unfold getUtf8Codepoint. rewrite H0, (toInt32_byte b0 Hb).
      fold (lead1 b0) (lead2 b0) (lead3 b0) (lead4 b0). exact H. }
    repeat split.
    + intros isMatch expected. unfold codepointUtf8. rewrite Hg. reflexivity.
    + intros i. simpl. rewrite Hg. reflexivity.
    + intros c encoded tok initialOffset. simpl. rewrite Hg. reflexivity.
    + intros fuel isMatch. simpl. rewrite Hg. reflexivity.
Qed.

Lemma getUtf8Codepoint_cases_witness :
  getUtf8Codepoint [0xf0; 0x9f; 0x92; 0xa9] 0 = Normal (Some 0x1f4a9) /\
  getUtf8Codepoint [0xe2; 0x82] 0 = Normal None.
Proof.
  split.
  - pose proof (getUtf8Codepoint_cases [0xf0; 0x9f; 0x92; 0xa9] 0 0xf0
                  eq_refl ltac:(lia)) as (_ & _ & _ & _ & _ & _ & H & _).
    exact (H eq_refl 0x9f 0x92 0xa9 eq_refl eq_refl eq_refl).
  - pose proof (getUtf8Codepoint_cases [0xe2; 0x82] 0 0xe2
                  eq_refl ltac:(lia)) as (_ & _ & _ & H & _).
    exact (H eq_refl eq_refl 0x82 eq_refl eq_refl).
Defined.

(** C9 as stated fails twice.  The byte 0x41 does not have the prefix of a
    continuation byte and is decoded as one after the leading byte 0xc3.  And
    the byte 0x80, which has none of the four patterns of a leading byte,
    gives no code point instead of an exception when it ends the input. *)
Lemma continuation_prefix_not_checked :
  is_continuation 0x41 = false /\
  getUtf8Codepoint [0xc3; 0x41] 0 = Normal (Some 0xc1) /\
  lead1 0x80 = false /\ lead2 0x80 = false /\ lead3 0x80 = false /\ lead4 0x80 = false /\
  getUtf8Codepoint [0x80] 0 = Normal None.
Proof.
  repeat split; vm_compute; reflexivity.
Qed.

(** ** Streaming and synchronous forms agree *)

(** What [map] does to a run. *)
Lemma map_run {T U} (p : Parser T) (f : T -> U) input offset s :
  map p f input offset s
  = match p input offset s with
    | Some (Success o v, s1) => Some (Success o (f v), s1)
    | Some (Failure o e fa, s1) => Some (Failure o e fa, s1)
    | None => None
    end.
Proof.
  unfold map, bind. destruct (p input offset s) as [[[o v|o e fa] s1]|]; reflexivity.
Qed.

Lemma streamingStar_loop_agree {T} (sp : StreamingParser T) (qp : Parser (list T))
    (input : jsstring) :
  (forall offset s, agree (sp input offset s) (qp input offset s)) ->
  forall fuel offset out tss s,
    out = concat tss ->
    agree (streamingStar_loop fuel sp input offset out s)
          (match star_loop fuel qp input tss offset s with
           | Some (Success o v, s1) => Some (Success o (concat v), s1)
           | Some (Failure o e fa, s1) => Some (Failure o e fa, s1)
           | None => None
           end).
Proof.
  intros Hin. induction fuel as [|fuel IH]; intros offset out tss s Hout; subst out.
  - simpl. exact I.
  - simpl. unfold bind. specialize (Hin offset s). unfold agree in Hin.
    destruct (sp input offset s) as [[[values result] s1]|];
      destruct (qp input offset s) as [[r s2]|]; try contradiction; [|exact I].
    destruct Hin as (-> & Hres & Hval). simpl in Hres. subst result.
    destruct r as [o vs|o e fa]; simpl.
    + specialize (Hval o vs eq_refl). simpl in Hval. subst values.
      rewrite (Z.eqb_sym offset o).
      destruct (o =? offset).
      * simpl. split; [reflexivity|]. split; [reflexivity|].
        intros o' vs' [= <- <-]. rewrite concat_app. simpl.
        rewrite app_nil_r. reflexivity.
      * apply IH. rewrite concat_app. simpl. rewrite app_nil_r. reflexivity.
    + destruct fa; simpl.
      * split; [reflexivity|]. split; [reflexivity|]. intros o' vs' [=].
      * split; [reflexivity|]. split; [reflexivity|].
        intros o' vs' [= <- <-]. reflexivity.
Qed.

(** C4: for every grammar built from the streaming operators, every input,
    every starting offset and every store, the streaming form and the
    synchronous form agree: they succeed or fail alike and at the same
    offset, and on success the items yielded, in order, are the flattened
    value of the synchronous form. *)
Theorem streaming_agrees_with_sync {T} (g : Grammar T) (input : jsstring)
    (offset : Z) (s : store) :
  agree (streaming_form g input offset s) (sync_form g input offset s).
Proof.
  revert input offset s.
  induction g as [T parser|T g1 IH1 g2 IH2|T fuel g IH|T g IH|T g IH|T g IH];
    intros input offset s; simpl.
  - unfold streaming, map, bind, agree.
    destruct (parser input offset s) as [[[o v|o e fa] s1]|]; simpl; [| |exact I].
    + split; [reflexivity|]. split; [reflexivity|]. intros o' vs' [= <- <-]. reflexivity.
    + split; [reflexivity|]. split; [reflexivity|]. intros o' vs' [=].
  - unfold streamingThen, then_, bind. specialize (IH1 input offset s).
    unfold agree in IH1.
    destruct (streaming_form g1 input offset s) as [[[ys1 r1] s1]|];
      destruct (sync_form g1 input offset s) as [[q1 s1']|]; try contradiction;
      [|exact I].
    destruct IH1 as (-> & Hres & Hval). simpl in Hres. subst r1. simpl.
    destruct q1 as [o1 vs1|o1 e1 fa1]; simpl.
    + specialize (Hval o1 vs1 eq_refl). simpl in Hval. subst ys1.
      specialize (IH2 input o1 s1'). unfold agree in IH2.
      destruct (streaming_form g2 input o1 s1') as [[[ys2 r2] s2]|];
        destruct (sync_form g2 input o1 s1') as [[q2 s2']|]; try contradiction;
        [|exact I].
      destruct IH2 as (-> & Hres2 & Hval2). simpl in Hres2. subst r2. simpl.
      destruct q2 as [o2 vs2|o2 e2 fa2]; simpl.
      * specialize (Hval2 o2 vs2 eq_refl). simpl in Hval2. subst ys2.
        split; [reflexivity|]. split; [reflexivity|].
        intros o' vs' [= <- <-]. reflexivity.
      * split; [reflexivity|]. split; [reflexivity|]. intros o' vs' [=].
    + split; [reflexivity|]. split; [reflexivity|]. intros o' vs' [=].
  - rewrite map_run. unfold streamingStar, star.
    apply streamingStar_loop_agree; [exact (IH input) | reflexivity].
  - unfold streamingOptional, map, optional, bind. specialize (IH input offset s).
    unfold agree in IH.
    destruct (streaming_form g input offset s) as [[[values result] s1]|];
      destruct (sync_form g input offset s) as [[q s1']|]; try contradiction;
      [|exact I].
    destruct IH as (-> & Hres & Hval). simpl in Hres. subst result. simpl.
    destruct q as [o vs|o e fa]; simpl.
    + specialize (Hval o vs eq_refl). simpl in Hval. subst values.
      split; [reflexivity|]. split; [reflexivity|]. intros o' vs' [= <- <-]. reflexivity.
    + destruct fa; simpl.
      * split; [reflexivity|]. split; [reflexivity|]. intros o' vs' [=].
      * split; [reflexivity|]. split; [reflexivity|]. intros o' vs' [= <- <-]. reflexivity.
  - unfold streamingComplete, complete, then_, bind. specialize (IH input offset s).
    unfold agree in IH.
    destruct (streaming_form g input offset s) as [[[values result] s1]|];
      destruct (sync_form g input offset s) as [[q s1']|]; try contradiction;
      [|exact I].
    destruct IH as (-> & Hres & Hval). simpl in Hres. subst result. simpl.
    destruct q as [o vs|o e fa]; simpl.
    + specialize (Hval o vs eq_refl). simpl in Hval. subst values.
      unfold end_. destruct (strlen input =? o); simpl.
      * split; [reflexivity|]. split; [reflexivity|]. intros o' vs' [= <- <-]. reflexivity.
      * split; [reflexivity|]. split; [reflexivity|]. intros o' vs' [=].
    + split; [reflexivity|]. split; [reflexivity|]. intros o' vs' [=].
  - unfold streamingFilterUndefined, filterUndefined, map, bind.
    specialize (IH input offset s). unfold agree in IH.
    destruct (streaming_form g input offset s) as [[[values result] s1]|];
      destruct (sync_form g input offset s) as [[q s1']|]; try contradiction;
      [|exact I].
    destruct IH as (-> & Hres & Hval). simpl in Hres. subst result. simpl.
    destruct q as [o vs|o e fa]; simpl.
    + specialize (Hval o vs eq_refl). simpl in Hval. subst values.
      split; [reflexivity|]. split; [reflexivity|]. intros o' vs' [= <- <-]. reflexivity.
    + split; [reflexivity|]. split; [reflexivity|]. intros o' vs' [=].
Qed.

(** * Further properties of the string-oriented combinators *)

(** ** [token] *)

Lemma slice_from_nonneg (s : jsstring) (a k : Z) :
  0 <= a -> 0 <= k ->
  slice s a (a + k) = take (Z.to_nat k) (drop (Z.to_nat a) s).
Proof.
  intros Ha Hk. unfold slice, strlen.
  destruct (Z.ltb_spec a 0) as [|_]; [lia|].
  destruct (Z.ltb_spec (a + k) 0) as [|_]; [lia|].
  destruct (Z.le_gt_cases a (Z.of_nat (length s))) as [Hle|Hgt].
  - replace (Z.to_nat (Z.min a (Z.of_nat (length s)))) with (Z.to_nat a) by lia.
    destruct (Z.le_gt_cases (a + k) (Z.of_nat (length s))) as [Hle2|Hgt2].
    + f_equal. lia.
    + rewrite !take_ge; [reflexivity | rewrite length_drop; lia | rewrite length_drop; lia].
  - rewrite !drop_ge by lia. rewrite !take_nil. reflexivity.
Qed.

(** X1: at an offset within the input, [token] succeeds exactly when the
    input reads [pre ++ tok ++ post] with [pre] of the length of the offset;
    it then returns the token at the offset after it, and otherwise fails at
    the offset it was given, expecting the token.  The store is untouched. *)
Theorem token_succeeds_iff (tok input : jsstring) (offset : Z) (s : store) :
  0 <= offset <= strlen input ->
  ((exists pre post, input = pre ++ tok ++ post /\ strlen pre = offset) ->
   token tok input offset s = Some (Success (offset + strlen tok) tok, s)) /\
  (~ (exists pre post, input = pre ++ tok ++ post /\ strlen pre = offset) ->
   token tok input offset s = Some (Failure offset [tok] false, s)).
Proof.
  intros Hoff.
  assert (E : slice input offset (offset + strlen tok)
              = take (length tok) (drop (Z.to_nat offset) input)).
  { rewrite slice_from_nonneg; [|lia|unfold strlen; lia].
    unfold strlen. rewrite Nat2Z.id. reflexivity. }
  unfold token. rewrite E. clear E. split.
  - intros (pre & post & -> & Hpre). unfold strlen in Hpre.
    rewrite drop_app_length' by lia. rewrite take_app_length.
    destruct (decide _) as [_|Hne]; [reflexivity | contradiction].
  - intros Hno.
    destruct (decide _) as [Heq|_]; [|reflexivity].
    exfalso. apply Hno.
    exists (take (Z.to_nat offset) input),
           (drop (length tok) (drop (Z.to_nat offset) input)).
    split.
    + rewrite <- Heq at 1. rewrite !take_drop. reflexivity.
    + unfold strlen in *. rewrite length_take. lia.
Qed.

Lemma token_succeeds_iff_witness :
  token (str "zaz") (str "zzazz") 1 ∅ = Some (Success (1 + strlen (str "zaz")) (str "zaz"), ∅) /\
  token (str "zaz") (str "zzazz") 0 ∅ = Some (Failure 0 [str "zaz"] false, ∅).
Proof.
  split.
  - apply (token_succeeds_iff (str "zaz") (str "zzazz") 1 ∅); [vm_compute; split; discriminate|].
    exists (str "z"), (str "z"). split; reflexivity.
  - apply (token_succeeds_iff (str "zaz") (str "zzazz") 0 ∅); [vm_compute; split; discriminate|].
    intros (pre & post & H & Hpre). destruct pre; [|discriminate Hpre].
    discriminate H.
Defined.

(** ** [codepoints], [codepoint] and the consumed loops *)

Lemma starConsumed_codepoint_loop isMatch expected (input : jsstring) (s : store) :
  forall fuel offset,
    (Z.to_nat (strlen input - offset) < fuel)%nat ->
    starConsumed_loop fuel (codepoint isMatch expected) input offset s
    = Some (ok (codepoints_loop (length input) isMatch input offset), s).
Proof.
  induction fuel as [|fuel IH]; intros offset Hf; [lia|].
  rewrite codepoints_loop_unfold. simpl. unfold bind, codepoint.
  destruct (codePointAt input offset) as [cp|] eqn:E; [|reflexivity].
  destruct (negb (isMatch cp)); [reflexivity|]. simpl.
  pose proof (lengthFromCodePoint_pos cp) as Hl.
  pose proof (codePointAt_Some_lt _ _ _ E) as Hlt.
  destruct (Z.eqb_spec (offset + lengthFromCodePoint cp) offset) as [Heq|_]; [lia|].
  rewrite IH by lia. reflexivity.
Qed.

(** X2: with more fuel than there are units from the offset to the end of
    the input, [codepoints isMatch] without [expected] is
    [starConsumed (codepoint isMatch _)], and [codepoints isMatch expected] is
    [plusConsumed (codepoint isMatch expected)], as the documentation of
    [codepoints] says: same result, same store. *)
Theorem codepoints_as_consumed_loops isMatch (expected : list jsstring)
    (input : jsstring) (offset : Z) (s : store) (fuel : nat) :
  (Z.to_nat (strlen input - offset) < fuel)%nat ->
  starConsumed fuel (codepoint isMatch expected) input offset s
  = codepoints isMatch None input offset s /\
  plusConsumed fuel (codepoint isMatch expected) input offset s
  = codepoints isMatch (Some expected) input offset s.
Proof.
  intros Hf. split.
  - unfold starConsumed, codepoints. apply starConsumed_codepoint_loop. exact Hf.
  - unfold plusConsumed, then_, starConsumed, codepoints.
    rewrite codepoints_loop_unfold. unfold bind at 1. unfold codepoint at 1.
    destruct (codePointAt input offset) as [cp|] eqn:E.
    + destruct (negb (isMatch cp)).
      * simpl. rewrite Z.eqb_refl. reflexivity.
      * simpl. pose proof (lengthFromCodePoint_pos cp) as Hl.
        pose proof (codePointAt_Some_lt _ _ _ E) as Hlt.
        unfold bind. rewrite starConsumed_codepoint_loop by lia.
        unfold lengthFromCodePoint in *.
        pose proof (codepoints_loop_ge (length input) isMatch input
                      (offset + (if cp >? 0xffff then 2 else 1))) as Hge.
        destruct (Z.eqb_spec
                    (codepoints_loop (length input) isMatch input
                       (offset + (if cp >? 0xffff then 2 else 1))) offset) as [Heq|_];
          [lia|]. reflexivity.
    + simpl. rewrite Z.eqb_refl. reflexivity.
Qed.

Lemma codepoints_as_consumed_loops_witness :
  starConsumed 5 (codepoint (fun cp => cp =? 97) []) (str "aaab") 0 ∅
  = codepoints (fun cp => cp =? 97) None (str "aaab") 0 ∅ /\
  plusConsumed 5 (codepoint (fun cp => cp =? 97) []) (str "aaab") 0 ∅
  = codepoints (fun cp => cp =? 97) (Some []) (str "aaab") 0 ∅.
Proof.
  apply (codepoints_as_consumed_loops (fun cp => cp =? 97) [] (str "aaab") 0 ∅ 5).
  vm_compute. lia.
Defined.

Lemma codepoints_loop_stops isMatch (input : jsstring) :
  forall fuel offset,
    offset < 0 \/ (Z.to_nat (strlen input - offset) <= fuel)%nat ->
    match codePointAt input (codepoints_loop fuel isMatch input offset) with
    | None => True
    | Some cp => isMatch cp = false
    end.
Proof.
  induction fuel as [|fuel IH]; intros offset Hf; simpl.
  - destruct (codePointAt input offset) as [cp|] eqn:E; [|exact I].
    apply codePointAt_Some_lt in E. lia.
  - destruct (codePointAt input offset) as [cp|] eqn:E; [|rewrite E; exact I].
    destruct (isMatch cp) eqn:Em; simpl; [|rewrite E; exact Em].
    apply codePointAt_Some_lt in E. apply IH. right.
    destruct (cp >? 0xffff); lia.
Qed.

(** X3: [codepoints] is greedy.  At the offset it returns, [codepoint] with
    the same predicate fails, at that offset and without being fatal, and
    [codepoints] without [expected] succeeds there without advancing. *)
Theorem codepoints_is_greedy isMatch expected (input : jsstring) (offset o : Z)
    (v : unit) (s s' : store) :
  codepoints isMatch expected input offset s = Some (Success o v, s') ->
  (forall e, codepoint isMatch e input o s' = Some (Failure o e false, s')) /\
  codepoints isMatch None input o s' = Some (Success o tt, s').
Proof.
  intros H.
  assert (Ho : o = codepoints_loop (length input) isMatch input offset /\ s' = s).
  { unfold codepoints in H. destruct expected; run_inv; auto. }
  destruct Ho as [Ho ->].
  assert (Hstop : match codePointAt input o with
                  | None => True
                  | Some cp => isMatch cp = false
                  end).
  { subst o. apply codepoints_loop_stops.
    destruct (Z.lt_ge_cases offset 0); [left; assumption | right; unfold strlen; lia]. }
  split.
  - intros e. unfold codepoint.
    destruct (codePointAt input o) as [cp|]; [rewrite Hstop|]; reflexivity.
  - unfold codepoints. rewrite codepoints_loop_unfold.
    destruct (codePointAt input o) as [cp|]; [rewrite Hstop|]; reflexivity.
Qed.

Lemma codepoints_is_greedy_witness :
  codepoint (fun cp => cp =? 97) [str "a"] (str "aaab") 3 ∅
  = Some (Failure 3 [str "a"] false, ∅).
Proof.
  apply (codepoints_is_greedy (fun cp => cp =? 97) None (str "aaab") 0 3 tt ∅ ∅).
  vm_compute; reflexivity.
Defined.

(** ** [skipChars] *)

Lemma skipChars_loop_add (input : jsstring) :
  forall i j offset,
    skipChars_loop (i + j) input offset
    = match skipChars_loop i input offset with
      | Success o _ => skipChars_loop j input o
      | Failure o e fa => Failure o e fa
      end.
Proof.
  induction i as [|i IH]; intros j offset; simpl; [reflexivity|].
  destruct (codePointAt input offset) as [cp|]; [apply IH | reflexivity].
Qed.

(** X4: skipping [a + b] code points is skipping [a] and then [b]:
    [skipChars (a + b)] and [preceded (skipChars a) (skipChars b)] return the
    same result, the failure included, which is reported where the input
    ends. *)
Theorem skipChars_add (a b : Z) (input : jsstring) (offset : Z) (s : store) :
  0 <= a -> 0 <= b ->
  skipChars (a + b) input offset s
  = preceded (skipChars a) (skipChars b) input offset s.
Proof.
  intros Ha Hb. unfold preceded, then_, skipChars, bind, ret.
  rewrite Z2Nat.inj_add by lia. rewrite skipChars_loop_add.
  destruct (skipChars_loop (Z.to_nat a) input offset) as [o []|o e fa]; [|reflexivity].
  destruct (skipChars_loop (Z.to_nat b) input o) as [o2 []|o2 e2 fa2]; reflexivity.
Qed.

Lemma skipChars_add_witness :
  skipChars (1 + 1) (str "a") 0 ∅ = preceded (skipChars 1) (skipChars 1) (str "a") 0 ∅.
Proof.
  apply (skipChars_add 1 1 (str "a") 0 ∅); lia.
Defined.

(** ** The loops that discard values *)

Lemma starConsumed_loop_as_star_loop {T} (p : Parser T) (input : jsstring) :
  forall fuel ts nextOffset s,
    starConsumed_loop fuel p input nextOffset s
    = match star_loop fuel p input ts nextOffset s with
      | Some (Success o _, s1) => Some (Success o tt, s1)
      | Some (Failure o e fa, s1) => Some (Failure o e fa, s1)
      | None => None
      end.
Proof.
  induction fuel as [|fuel IH]; intros ts nextOffset s; simpl; [reflexivity|].
  unfold bind. destruct (p input nextOffset s) as [[[o v|o e fa] s1]|]; [| |reflexivity].
  - destruct (o =? nextOffset); [reflexivity | apply IH].
  - destruct fa; reflexivity.
Qed.

(** X5: [starConsumed p] is [consume (star p)] and [plusConsumed p] is
    [consume (plus p)]: the same offsets, failures and stores, at every
    fuel. *)
Theorem consumed_loops_discard_values {T} (p : Parser T) (fuel : nat)
    (input : jsstring) (offset : Z) (s : store) :
  starConsumed fuel p input offset s = consume (star fuel p) input offset s /\
  plusConsumed fuel p input offset s = consume (plus fuel p) input offset s.
Proof.
  split.
  - unfold consume. rewrite map_run. unfold starConsumed, star.
    apply starConsumed_loop_as_star_loop.
  - unfold consume. rewrite map_run. unfold plusConsumed, plus, then_, bind.
    destruct (p input offset s) as [[[o v|o e fa] s1]|]; [| reflexivity..].
    unfold starConsumed, star.
    rewrite (starConsumed_loop_as_star_loop p input fuel [] o s1).
    destruct (star_loop fuel p input [] o s1) as [[[o2 v2|o2 e2 fa2] s2]|]; reflexivity.
Qed.

Lemma star_loop_failure {T} (p : Parser T) (input : jsstring) :
  forall fuel ts nextOffset s o e fa s',
    star_loop fuel p input ts nextOffset s = Some (Failure o e fa, s') ->
    fa = true /\ exists off s0, p input off s0 = Some (Failure o e true, s').
Proof.
  induction fuel as [|fuel IH]; intros ts nextOffset s o e fa s' H; simpl in H;
    [discriminate|].
  apply bind_Some in H. destruct H as (r & s1 & Hp & H).
  destruct r as [o1 v1|o1 e1 fa1].
  - destruct (o1 =? nextOffset); [run_inv | eapply IH; eassumption].
  - destruct fa1; run_inv. split; [reflexivity|]. eauto.
Qed.

(** X6: [optional], [star] and [starConsumed] never fail on their own: a
    failure of theirs is fatal and is a fatal failure their operand
    returned. *)
Theorem repetitions_fail_only_fatally {T} (p : Parser T) (fuel : nat)
    (input : jsstring) (offset : Z) (s s' : store) (o : Z) (e : list jsstring)
    (fa : bool) :
  (optional p input offset s = Some (Failure o e fa, s') ->
   fa = true /\ p input offset s = Some (Failure o e true, s')) /\
  (star fuel p input offset s = Some (Failure o e fa, s') ->
   fa = true /\ exists off s0, p input off s0 = Some (Failure o e true, s')) /\
  (starConsumed fuel p input offset s = Some (Failure o e fa, s') ->
   fa = true /\ exists off s0, p input off s0 = Some (Failure o e true, s')).
Proof.
  split; [|split].
  - intros H. unfold optional in H. apply bind_Some in H.
    destruct H as (r & s1 & Hp & H). destruct r as [o1 v1|o1 e1 fa1]; [run_inv|].
    destruct fa1; simpl in H; run_inv. auto.
  - intros H. unfold star in H. eapply star_loop_failure. exact H.
  - intros H. unfold starConsumed in H.
    rewrite (starConsumed_loop_as_star_loop p input fuel [] offset s) in H.
    destruct (star_loop fuel p input [] offset s) as [[[o2 v2|o2 e2 fa2] s2]|] eqn:E;
      try discriminate.
    injection H as -> -> -> ->. eapply star_loop_failure. exact E.
Qed.

Lemma repetitions_fail_only_fatally_witness :
  true = true /\
  exists off s0, cut (token (str "a")) (str "aaab") off s0
                 = Some (Failure 3 [str "a"] true, ∅).
Proof.
  apply (repetitions_fail_only_fatally (cut (token (str "a"))) 9 (str "aaab") 0 ∅ ∅ 3
           [str "a"] true).
  vm_compute; reflexivity.
Defined.

(** ** [recognize] *)

(** X7: for a parser built from the library, on a string of 16-bit units and
    from an offset within the input, the value of [recognize] is the part of
    the input between the starting offset and the offset reached: its
    length is the advance, the input reads [before ++ value ++ after] with
    [before] of the length of the starting offset, and [token] of that value
    succeeds at the same place and reaches the same offset. *)
Theorem recognize_returns_consumed (c : bool) (n : nat) {T} (p : Parser T)
    (input : jsstring) (offset o : Z) (v : jsstring) (s s' : store) :
  Built c n p ->
  wf_string input ->
  0 <= offset <= strlen input ->
  recognize p input offset s = Some (Success o v, s') ->
  strlen v = o - offset /\
  input = take (Z.to_nat offset) input ++ v ++ drop (Z.to_nat o) input /\
  forall s0, token v input offset s0 = Some (Success o v, s0).
Proof.
  intros HB Hwf Hoff H. unfold recognize in H. apply bind_Some in H.
  destruct H as (r & s1 & Hp & H). destruct r as [o1 v1|o1 e1 fa1]; [|run_inv].
  pose proof (Built_within c n p input Hwf HB offset s _ s1 Hp) as Hw.
  unfold within in Hw. simpl in Hw. run_inv.
  assert (Hs : slice input offset o
               = take (Z.to_nat (o - offset)) (drop (Z.to_nat offset) input)).
  { replace o with (offset + (o - offset)) at 1 by lia.
    apply slice_from_nonneg; lia. }
  assert (Hlen : strlen (slice input offset o) = o - offset).
  { rewrite Hs. unfold strlen in *. rewrite length_take, length_drop. lia. }
  split; [exact Hlen|]. split.
  - rewrite Hs. rewrite <- (take_drop (Z.to_nat offset) input) at 1. f_equal.
    rewrite <- (take_drop (Z.to_nat (o - offset)) (drop (Z.to_nat offset) input)) at 1.
    f_equal. rewrite drop_drop. f_equal. lia.
  - intros s0. unfold token. rewrite Hlen.
    replace (offset + (o - offset)) with o by lia.
    destruct (decide _) as [_|Hne]; [reflexivity | contradiction].
Qed.

Lemma recognize_returns_consumed_witness :
  strlen (str "{meep}") = 6 - 0 /\
  str "{meep}" = take (Z.to_nat 0) (str "{meep}") ++ str "{meep}"
                 ++ drop (Z.to_nat 6) (str "{meep}") /\
  forall s0, token (str "{meep}") (str "{meep}") 0 s0
             = Some (Success 6 (str "{meep}"), s0).
Proof.
  apply (recognize_returns_consumed false 0%nat
           (delimited (token (str "{")) (token (str "meep")) (token (str "}")) None)
           (str "{meep}") 0 6 (str "{meep}") ∅ ∅).
  - apply Built_delimited; [discriminate | constructor..].
  - apply wf_string_str.
  - vm_compute. split; discriminate.
  - vm_compute; reflexivity.
Defined.

(** ** [or]: the first success *)

Lemma or_loop_first_success {T} l (after : list (Parser T)) (p : Parser T) input offset
    before s s1 :
  fails_through input offset before s s1 ->
  forall lastError s2 o v,
    p input offset s1 = Some (Success o v, s2) ->
    or_loop l (before ++ p :: after) input offset lastError s
    = Some (Success o v, s2).
Proof.
  induction 1 as [s|q qs s sa sb o' e' Hq Hqs IH]; intros lastError s2 o v Hp.
  - simpl. unfold bind. rewrite Hp. reflexivity.
  - simpl. unfold bind at 1. rewrite Hq. unfold bind at 1. simpl.
    apply IH. exact Hp.
Qed.

(** X8: [or] returns the success of the first branch that succeeds after
    branches that fail without being fatal: the result and the store are
    those of that branch, whatever the later branches are, and the cell of
    [expected] is not written. *)
Theorem or_returns_first_success {T} (l : loc) (before after : list (Parser T))
    (p : Parser T) (input : jsstring) (offset : Z) (s s1 s2 : store) (o : Z) (v : T) :
  fails_through input offset before s s1 ->
  p input offset s1 = Some (Success o v, s2) ->
  or l (before ++ p :: after) input offset s = Some (Success o v, s2).
Proof.
  intros Hb Hp. unfold or. eapply or_loop_first_success; eassumption.
Qed.

Lemma or_returns_first_success_witness :
  or 0%nat ([token (str "a")] ++ token (str "b") :: [token (str "c")]) (str "b") 0 ∅
  = Some (Success 1 (str "b"), ∅).
Proof.
  apply (or_returns_first_success 0%nat [token (str "a")] [token (str "c")]
           (token (str "b")) (str "b") 0 ∅ ∅ ∅).
  - eapply ft_cons; [vm_compute; reflexivity | apply ft_nil].
  - vm_compute; reflexivity.
Defined.

Lemma or_aggregates_witness :
  or 0%nat [token (str "a"); token (str "b"); token (str "c")] (str "d") 0 ∅
  = Some (Failure 0 [str "a"; str "b"; str "c"] false,
          <[0%nat := [str "a"; str "b"; str "c"]]> ∅).
Proof.
  rewrite (or_aggregates 0%nat (str "d") 0
             [token (str "a"); token (str "b"); token (str "c")] ∅ ∅
             [mkErr 0 [str "a"] false; mkErr 0 [str "b"] false; mkErr 0 [str "c"] false]).
  - vm_compute; reflexivity.
  - repeat (eapply af_cons; [vm_compute; reflexivity | reflexivity |]).
    apply af_nil.
Defined.

(** ** Laws of [map] and [then] *)

(** X10: [map] is a functor on parsers, as far as runs can tell: mapping the
    identity changes nothing, mapping twice is mapping the composition, and
    [consume] forgets a mapping. *)
Theorem map_laws {T U V} (p : Parser T) (f : T -> U) (g : U -> V)
    (input : jsstring) (offset : Z) (s : store) :
  map p (fun v => v) input offset s = p input offset s /\
  map (map p f) g input offset s = map p (fun v => g (f v)) input offset s /\
  consume (map p f) input offset s = consume p input offset s.
Proof.
  unfold consume. rewrite !map_run.
  destruct (p input offset s) as [[[o v|o e fa] s1]|]; repeat split; reflexivity.
Qed.

(** X11: sequencing is associative.  When the joins agree, grouping the
    first two parsers or the last two gives the same result and the same
    store; a failure is the one of the stage that failed; in particular
    [preceded] and [followed] nest either way. *)
Theorem then_assoc {T1 T2 T3 T12 T23 T} (p1 : Parser T1) (p2 : Parser T2)
    (p3 : Parser T3) (j12 : T1 -> T2 -> T12) (j3 : T12 -> T3 -> T)
    (j23 : T2 -> T3 -> T23) (j1 : T1 -> T23 -> T)
    (input : jsstring) (offset : Z) (s : store) :
  (forall a b c, j3 (j12 a b) c = j1 a (j23 b c)) ->
  then_ (then_ p1 p2 j12) p3 j3 input offset s
  = then_ p1 (then_ p2 p3 j23) j1 input offset s.
Proof.
  intros Hj. unfold then_, bind.
  destruct (p1 input offset s) as [[[o1 v1|o1 e1 fa1] s1]|]; [| reflexivity..].
  destruct (p2 input o1 s1) as [[[o2 v2|o2 e2 fa2] s2]|]; [| reflexivity..].
  simpl.
  destruct (p3 input o2 s2) as [[[o3 v3|o3 e3 fa3] s3]|]; [| reflexivity..].
  simpl. unfold okWithValue. rewrite Hj. reflexivity.
Qed.

Lemma then_assoc_witness :
  preceded (preceded (token (str "a")) (token (str "b"))) (token (str "c")) (str "abd") 0 ∅
  = preceded (token (str "a")) (preceded (token (str "b")) (token (str "c"))) (str "abd") 0 ∅.
Proof.
  unfold preceded.
  apply (then_assoc (token (str "a")) (token (str "b")) (token (str "c"))
           second second second second (str "abd") 0 ∅).
  reflexivity.
Defined.

(** ** [dispatch], [except] and [delimited] *)

Lemma codePointAt_outside (input : jsstring) (pos : Z) :
  pos < 0 \/ strlen input <= pos -> codePointAt input pos = None.
Proof.
  intros H. destruct (codePointAt input pos) as [cp|] eqn:E; [|reflexivity].
  apply codePointAt_Some_lt in E. lia.
Qed.

(** X12: where the input holds no code point to look at, before its start or
    from its end on, [dispatch] fails at the offset it was given, without
    being fatal and with its [expected] list (empty when none was given); it
    does not apply the [otherwise] parser there, even one that would succeed
    at the end of the input. *)
Theorem dispatch_without_codepoint {T} (mapping : gmap Z (Parser T))
    (otherwise : option (Parser T)) (extraOffset : option Z)
    (expected : option (list jsstring)) (input : jsstring) (offset : Z) (s : store) :
  offset + default 0 extraOffset < 0 \/ strlen input <= offset + default 0 extraOffset ->
  dispatch mapping otherwise extraOffset expected input offset s
  = Some (Failure offset (default [] expected) false, s).
Proof.
  intros H. unfold dispatch. rewrite codePointAt_outside by exact H. reflexivity.
Qed.

Lemma dispatch_without_codepoint_witness :
  dispatch (∅ : gmap Z (Parser unit)) (Some end_) None None (str "a") 1 ∅
  = Some (Failure 1 [] false, ∅) /\
  end_ (str "a") 1 ∅ = Some (Success 1 tt, ∅).
Proof.
  split.
  - apply (dispatch_without_codepoint ∅ (Some end_) None None (str "a") 1 ∅).
    right. vm_compute. discriminate.
  - vm_compute; reflexivity.
Defined.

(** X13: [except match except expected] runs the parser [except] first; when
    that one succeeds it fails at the starting offset, without being fatal,
    with [expected], and [match] is not applied; when that one fails, fatally
    or not, the result is the one of [match] at the starting offset.  The
    store [except] leaves is kept in both cases. *)
Theorem except_spec {T U} (match_ : Parser T) (except_ : Parser U)
    (expected : list jsstring) (input : jsstring) (offset : Z) (s : store) :
  except match_ except_ expected input offset s
  = match except_ input offset s with
    | None => None
    | Some (Success _ _, s1) => Some (Failure offset expected false, s1)
    | Some (Failure _ _ _, s1) => match_ input offset s1
    end.
Proof.
  unfold except, preceded, then_, not, bind.
  destruct (except_ input offset s) as [[[o v|o e fa] s1]|]; try reflexivity.
  simpl. destruct (match_ input offset s1) as [[[o2 v2|o2 e2 fa2] s2]|]; reflexivity.
Qed.

(** X14: [delimited open inner close cutAfterOpen] returns the value of
    [inner] at the offset [close] reaches.  A failure of [open] is returned
    as it is, also when [cutAfterOpen] is set; a failure of [inner] or of
    [close] is returned with its offset and expected list, and fatal as soon
    as [cutAfterOpen] is set. *)
Theorem delimited_spec {TOpen T TClose} (open : Parser TOpen) (inner : Parser T)
    (close : Parser TClose) (cutAfterOpen : option bool)
    (input : jsstring) (offset : Z) (s : store) :
  delimited open inner close cutAfterOpen input offset s
  = match open input offset s with
    | None => None
    | Some (Failure o e fa, s1) => Some (Failure o e fa, s1)
    | Some (Success o1 _, s1) =>
        match inner input o1 s1 with
        | None => None
        | Some (Failure o e fa, s2) =>
            Some (Failure o e (default false cutAfterOpen || fa), s2)
        | Some (Success o2 v, s2) =>
            match close input o2 s2 with
            | None => None
            | Some (Failure o e fa, s3) =>
                Some (Failure o e (default false cutAfterOpen || fa), s3)
            | Some (Success o3 _, s3) => Some (Success o3 v, s3)
            end
        end
    end.
Proof.
  unfold delimited, preceded.
  destruct (default false cutAfterOpen); unfold cut, followed, then_, bind;
    destruct (open input offset s) as [[[o1 v1|o1 e1 fa1] s1]|]; try reflexivity;
    destruct (inner input o1 s1) as [[[o2 v2|o2 e2 fa2] s2]|]; try reflexivity;
    destruct (close input o2 s2) as [[[o3 v3|o3 e3 fa3] s3]|]; reflexivity.
Qed.

(** ** Parsers built from the library return *)

(** X15: on a string of 16-bit units, a parser built from the library
    returns a result at every offset, provided each loop of [star] and
    [starConsumed] in it is given more fuel than there are units from that
    offset to the end of the input: no combination of the combinators loops
    for ever. *)
Theorem library_parsers_return (c : bool) (n : nat) {T} (p : Parser T)
    (input : jsstring) (offset : Z) (s : store) :
  Built c n p ->
  wf_string input ->
  (Z.to_nat (strlen input - offset) < n)%nat ->
  exists r s', p input offset s = Some (r, s').
Proof.
  intros HB Hwf Hn.
  pose proof (Built_returns c n p input Hwf HB offset s Hn) as H.
  destruct (p input offset s) as [[r s']|]; [eauto | contradiction].
Qed.

Lemma library_parsers_return_witness :
  exists r s', star 4 (star 4 (optional (token (str "a")))) (str "aab") 0 ∅ = Some (r, s').
Proof.
  apply (library_parsers_return false 4).
  - repeat (constructor; try lia).
  - apply wf_string_str.
  - vm_compute. lia.
Defined.

(** ** [range] *)



(** * Further properties of the byte-oriented variant *)

Lemma byteAt_app (pre l : bytes) (i : Z) :
  0 <= i -> byteAt (pre ++ l) (strlen pre + i) = byteAt l i.
Proof.
  intros Hi. unfold byteAt, strlen, bytes in *.
  destruct (Z.ltb_spec (Z.of_nat (length pre) + i) 0) as [|_]; [lia|].
  destruct (Z.ltb_spec i 0) as [|_]; [lia|].
  rewrite lookup_app_r by lia. f_equal. lia.
Qed.

Lemma getUtf8Codepoint_app (pre l : bytes) (i : Z) :
  0 <= i -> getUtf8Codepoint (pre ++ l) (strlen pre + i) = getUtf8Codepoint l i.
Proof.
  intros Hi. unfold getUtf8Codepoint.
  rewrite <- !Z.add_assoc. rewrite !byteAt_app by lia. reflexivity.
Qed.

Lemma lor_shiftl_add (a b k : Z) :
  0 <= k -> 0 <= b < 2 ^ k -> Z.lor (Z.shiftl a k) b = a * 2 ^ k + b.
Proof.
  intros Hk Hb.
  assert (Hland : Z.land (Z.shiftl a k) b = 0).
  { rewrite <- (Z.mod_small b (2 ^ k)) by exact Hb.
    rewrite <- Z.land_ones by exact Hk.
    rewrite (Z.land_comm b), Z.land_assoc.
    rewrite (Z.land_ones (Z.shiftl a k)) by exact Hk.
    rewrite Z.shiftl_mul_pow2 by exact Hk. rewrite Z.mod_mul by lia.
    reflexivity. }
  pose proof (Z.add_lor_land (Z.shiftl a k) b) as H.
  rewrite Hland, Z.add_0_r in H. rewrite H.
  rewrite Z.shiftl_mul_pow2 by exact Hk. reflexivity.
Qed.

(** The bytes an encoder writes, by their ranges. *)
Lemma encoded_byte_facts (b : Z) :
  0 <= b < 256 ->
  (b < 0x80 -> lead1 b = true) /\
  (lead1 b = true -> b < 0x80) /\
  (0xc0 <= b <= 0xdf -> lead1 b = false /\ lead2 b = true /\ Z.land b 0x1f = b - 0xc0) /\
  (0xe0 <= b <= 0xef ->
   lead1 b = false /\ lead2 b = false /\ lead3 b = true /\ Z.land b 0x0f = b - 0xe0) /\
  (0xf0 <= b <= 0xf7 ->
   lead1 b = false /\ lead2 b = false /\ lead3 b = false /\ lead4 b = true /\
   Z.land b 0x0f = b - 0xf0) /\
  (0x80 <= b <= 0xbf -> Z.land b 0x3f = b - 0x80).
Proof.
  intros Hb.
  pose proof (byte_forall
    (fun b =>
       implb (b <? 0x80) (lead1 b) && implb (lead1 b) (b <? 0x80)
       && implb ((0xc0 <=? b) && (b <=? 0xdf))
            (negb (lead1 b) && lead2 b && (Z.land b 0x1f =? b - 0xc0))
       && implb ((0xe0 <=? b) && (b <=? 0xef))
            (negb (lead1 b) && negb (lead2 b) && lead3 b && (Z.land b 0x0f =? b - 0xe0))
       && implb ((0xf0 <=? b) && (b <=? 0xf7))
            (negb (lead1 b) && negb (lead2 b) && negb (lead3 b) && lead4 b
             && (Z.land b 0x0f =? b - 0xf0))
       && implb ((0x80 <=? b) && (b <=? 0xbf)) (Z.land b 0x3f =? b - 0x80))
    ltac:(vm_compute; reflexivity) b Hb) as H.
  repeat (apply andb_prop in H; destruct H as [H ?]).
  repeat split; intros;
    repeat match goal with
      | H : implb ?x ?y = true |- _ =>
          let E := fresh in
          assert (E : x = true) by
            (repeat (apply andb_true_intro; split); first [apply Z.ltb_lt | apply Z.leb_le | assumption]; lia);
          rewrite E in H; simpl in H; clear E
      | H : implb _ _ = true |- _ => clear H
      end;
    repeat match goal with
      | H : _ && _ = true |- _ => apply andb_prop in H; destruct H
      | H : negb _ = true |- _ => apply negb_true_iff in H
      | H : (_ =? _) = true |- _ => apply Z.eqb_eq in H
      | H : (_ <? _) = true |- _ => apply Z.ltb_lt in H
      end; auto.
Qed.

Lemma byteAt_cons_succ (b : Z) (l : bytes) (i : Z) :
  0 <= i -> byteAt (b :: l) (i + 1) = byteAt l i.
Proof.
  intros Hi. rewrite Z.add_comm. exact (byteAt_app [b] l i Hi).
Qed.

Lemma byteAt_head (b : Z) (l : bytes) : byteAt (b :: l) 0 = Some b.
Proof. reflexivity. Qed.

(** What the decoder reads at the head of an array, by the range of the
    leading byte. *)
Lemma decode_head (b0 : Z) (l : bytes) :
  0 <= b0 < 256 ->
  getUtf8Codepoint (b0 :: l) 0
  = if lead1 b0 then Normal (Some b0)
    else match l with
         | [] => Normal None
         | b1 :: l1 =>
             if lead2 b0
             then Normal (Some (Z.lor (Z.shiftl (Z.land b0 0x1f) 6) (Z.land b1 0x3f)))
             else match l1 with
                  | [] => Normal None
                  | b2 :: l2 =>
                      if lead3 b0
                      then Normal (Some (Z.lor (Z.lor (Z.shiftl (Z.land b0 0x0f) 12)
                                                       (Z.shiftl (Z.land b1 0x3f) 6))
                                                (Z.land b2 0x3f)))
                      else match l2 with
                           | [] => Normal None
                           | b3 :: _ =>
                               if lead4 b0
                               then Normal (Some (Z.lor (Z.lor (Z.lor
                                              (Z.shiftl (Z.land b0 0x0f) 18)
                                              (Z.shiftl (Z.land b1 0x3f) 12))
                                              (Z.shiftl (Z.land b2 0x3f) 6))
                                              (Z.land b3 0x3f)))
                               else Throw "invalid utf-8 character"
                           end
                  end
         end.
Proof.
  intros Hb. unfold getUtf8Codepoint.
  rewrite byteAt_head, (toInt32_byte b0 Hb).
  fold (lead1 b0) (lead2 b0) (lead3 b0) (lead4 b0).
  destruct (lead1 b0); [reflexivity|].
  destruct l as [|b1 [|b2 [|b3 l3]]];
    destruct (lead2 b0), (lead3 b0), (lead4 b0); reflexivity.
Qed.

Lemma utf8_encode_head (cp : Z) (rest : bytes) :
  0 <= cp <= 0x10FFFF ->
  getUtf8Codepoint (utf8_encode cp ++ rest) 0 = Normal (Some cp) /\
  getUtf8Length cp = strlen (utf8_encode cp) /\
  wf_bytes (utf8_encode cp).
Proof.
  intros Hcp. unfold utf8_encode, getUtf8Length, wf_bytes.
  destruct (Z.leb_spec cp 0x7f) as [H1|H1].
  - split; [|split; [reflexivity | repeat constructor; lia]].
    simpl app. rewrite decode_head by lia.
    destruct (encoded_byte_facts cp ltac:(lia)) as (F & _). rewrite F by lia. reflexivity.
  - destruct (Z.leb_spec cp 0x7ff) as [H2|H2].
    + pose proof (Z.div_mod cp 64 ltac:(lia)) as Hdm.
      pose proof (Z.mod_pos_bound cp 64 ltac:(lia)) as Hm.
      assert (Hq : 2 <= cp / 64 <= 31) by lia.
      split; [|split; [reflexivity | repeat constructor; lia]].
      simpl app. rewrite decode_head by lia.
      destruct (encoded_byte_facts (0xc0 + cp / 64) ltac:(lia)) as (_ & _ & F & _).
      destruct (F ltac:(lia)) as (-> & -> & ->).
      destruct (encoded_byte_facts (0x80 + cp mod 64) ltac:(lia)) as (_ & _ & _ & _ & _ & G).
      rewrite (G ltac:(lia)).
      rewrite lor_shiftl_add by lia. do 2 f_equal. change (2 ^ 6) with 64. lia.
    + destruct (Z.leb_spec cp 0xffff) as [H3|H3].
      * pose proof (Z.div_mod cp 64 ltac:(lia)) as Hdm.
        pose proof (Z.mod_pos_bound cp 64 ltac:(lia)) as Hm.
        pose proof (Z.div_mod (cp / 64) 64 ltac:(lia)) as Hdm2.
        pose proof (Z.mod_pos_bound (cp / 64) 64 ltac:(lia)) as Hm2.
        assert (Hqq : cp / 4096 = cp / 64 / 64)
          by (rewrite Z.div_div by lia; reflexivity).
        assert (Hq : 0 <= cp / 4096 <= 15) by lia.
        split; [|split; [reflexivity | repeat constructor; lia]].
        simpl app. rewrite decode_head by lia.
        destruct (encoded_byte_facts (0xe0 + cp / 4096) ltac:(lia)) as (_ & _ & _ & F & _).
        destruct (F ltac:(lia)) as (-> & -> & -> & ->).
        destruct (encoded_byte_facts (0x80 + cp mod 64) ltac:(lia)) as (_ & _ & _ & _ & _ & G).
        rewrite (G ltac:(lia)).
        destruct (encoded_byte_facts (0x80 + (cp / 64) mod 64) ltac:(lia))
          as (_ & _ & _ & _ & _ & G2).
        rewrite (G2 ltac:(lia)).
        replace (0xe0 + cp / 4096 - 0xe0) with (cp / 4096) by lia.
        replace (0x80 + cp mod 64 - 0x80) with (cp mod 64) by lia.
        replace (0x80 + (cp / 64) mod 64 - 0x80) with ((cp / 64) mod 64) by lia.
        rewrite (Z.shiftl_mul_pow2 ((cp / 64) mod 64) 6) by lia.
        rewrite (lor_shiftl_add (cp / 4096) ((cp / 64) mod 64 * 2 ^ 6) 12)
          by (change (2 ^ 6) with 64; change (2 ^ 12) with 4096; lia).
        replace (cp / 4096 * 2 ^ 12 + (cp / 64) mod 64 * 2 ^ 6)
          with ((cp / 64) * 2 ^ 6)
          by (change (2 ^ 6) with 64; change (2 ^ 12) with 4096; lia).
        rewrite <- (Z.shiftl_mul_pow2 (cp / 64) 6) by lia.
        rewrite lor_shiftl_add by (change (2 ^ 6) with 64; lia).
        do 2 f_equal. change (2 ^ 6) with 64. lia.
      * pose proof (Z.div_mod cp 64 ltac:(lia)) as Hdm.
        pose proof (Z.mod_pos_bound cp 64 ltac:(lia)) as Hm.
        pose proof (Z.div_mod (cp / 64) 64 ltac:(lia)) as Hdm2.
        pose proof (Z.mod_pos_bound (cp / 64) 64 ltac:(lia)) as Hm2.
        pose proof (Z.div_mod (cp / 4096) 64 ltac:(lia)) as Hdm3.
        pose proof (Z.mod_pos_bound (cp / 4096) 64 ltac:(lia)) as Hm3.
        assert (Hqq : cp / 4096 = cp / 64 / 64)
          by (rewrite Z.div_div by lia; reflexivity).
        assert (Hqqq : cp / 262144 = cp / 4096 / 64)
          by (rewrite Z.div_div by lia; reflexivity).
        assert (Hq : 0 <= cp / 262144 <= 4) by lia.
        split; [|split; [reflexivity | repeat constructor; lia]].
        simpl app. rewrite decode_head by lia.
        destruct (encoded_byte_facts (0xf0 + cp / 262144) ltac:(lia))
          as (_ & _ & _ & _ & F & _).
        destruct (F ltac:(lia)) as (-> & -> & -> & -> & ->).
        destruct (encoded_byte_facts (0x80 + cp mod 64) ltac:(lia)) as (_ & _ & _ & _ & _ & G).
        rewrite (G ltac:(lia)).
        destruct (encoded_byte_facts (0x80 + (cp / 64) mod 64) ltac:(lia))
          as (_ & _ & _ & _ & _ & G2).
        rewrite (G2 ltac:(lia)).
        destruct (encoded_byte_facts (0x80 + (cp / 4096) mod 64) ltac:(lia))
          as (_ & _ & _ & _ & _ & G3).
        rewrite (G3 ltac:(lia)).
        replace (0xf0 + cp / 262144 - 0xf0) with (cp / 262144) by lia.
        replace (0x80 + cp mod 64 - 0x80) with (cp mod 64) by lia.
        replace (0x80 + (cp / 64) mod 64 - 0x80) with ((cp / 64) mod 64) by lia.
        replace (0x80 + (cp / 4096) mod 64 - 0x80) with ((cp / 4096) mod 64) by lia.
        rewrite (Z.shiftl_mul_pow2 ((cp / 4096) mod 64) 12) by lia.
        rewrite (lor_shiftl_add (cp / 262144) ((cp / 4096) mod 64 * 2 ^ 12) 18)
          by (change (2 ^ 12) with 4096; change (2 ^ 18) with 262144; lia).
        replace (cp / 262144 * 2 ^ 18 + (cp / 4096) mod 64 * 2 ^ 12)
          with ((cp / 4096) * 2 ^ 12)
          by (change (2 ^ 12) with 4096; change (2 ^ 18) with 262144; lia).
        rewrite (Z.shiftl_mul_pow2 ((cp / 64) mod 64) 6) by lia.
        rewrite <- (Z.shiftl_mul_pow2 (cp / 4096) 12) by lia.
        rewrite (lor_shiftl_add (cp / 4096) ((cp / 64) mod 64 * 2 ^ 6) 12)
          by (change (2 ^ 6) with 64; change (2 ^ 12) with 4096; lia).
        replace (cp / 4096 * 2 ^ 12 + (cp / 64) mod 64 * 2 ^ 6)
          with ((cp / 64) * 2 ^ 6)
          by (change (2 ^ 6) with 64; change (2 ^ 12) with 4096; lia).
        rewrite <- (Z.shiftl_mul_pow2 (cp / 64) 6) by lia.
        rewrite lor_shiftl_add by (change (2 ^ 6) with 64; lia).
        do 2 f_equal. change (2 ^ 6) with 64. lia.
Qed.

Lemma utf8_decode_head_at (cp : Z) (pre rest : bytes) :
  0 <= cp <= 0x10FFFF ->
  getUtf8Codepoint (pre ++ utf8_encode cp ++ rest) (strlen pre) = Normal (Some cp) /\
  getUtf8Length cp = strlen (utf8_encode cp).
Proof.
  intros Hcp. destruct (utf8_encode_head cp rest Hcp) as (Hd & Hl & _).
  split; [|exact Hl].
  rewrite <- (Z.add_0_r (strlen pre)). rewrite getUtf8Codepoint_app by lia. exact Hd.
Qed.

(** X17: the decoder inverts the UTF-8 encoding.  For every code point up to
    0x10FFFF, wherever its encoding stands in the input, [getUtf8Codepoint]
    at its first byte returns the code point, and [getUtf8Length] of the code
    point is the number of bytes of the encoding, so that a primitive that
    accepts it continues at the first byte after it. *)
Theorem utf8_decode_encode (cp : Z) (pre rest : bytes) :
  0 <= cp <= 0x10FFFF ->
  getUtf8Codepoint (pre ++ utf8_encode cp ++ rest) (strlen pre) = Normal (Some cp) /\
  getUtf8Length cp = strlen (utf8_encode cp) /\
  (forall isMatch expected,
      isMatch cp = true ->
      codepointUtf8 isMatch expected (pre ++ utf8_encode cp ++ rest) (strlen pre)
      = Normal (Success (strlen (pre ++ utf8_encode cp)) tt)).
Proof.
  intros Hcp. destruct (utf8_decode_head_at cp pre rest Hcp) as (E & Hl).
  split; [exact E|]. split; [exact Hl|].
  intros isMatch expected Hm. unfold codepointUtf8. rewrite E, Hm. simpl.
  unfold ok, okWithValue. do 2 f_equal. rewrite Hl. unfold strlen.
  rewrite length_app. lia.
Qed.

Lemma utf8_decode_encode_witness :
  getUtf8Codepoint ([0x61] ++ utf8_encode 0x1f4a9 ++ [0x62]) (strlen [0x61])
  = Normal (Some 0x1f4a9).
Proof.
  apply (utf8_decode_encode 0x1f4a9 [0x61] [0x62]). lia.
Defined.

Lemma toCodePoints_in_range (n : nat) :
  forall s : jsstring,
    (length s <= n)%nat ->
    wf_string s ->
    Forall (fun cp => 0 <= cp <= 0x10FFFF) (toCodePoints s) /\
    fromCodePoints (List.map Some (toCodePoints s)) = Some s.
Proof.
  induction n as [|n IH]; intros s Hlen Hwf.
  - destruct s; [split; [constructor | reflexivity] | simpl in Hlen; lia].
  - destruct s as [|u rest]; [split; [constructor | reflexivity]|].
    unfold wf_string in Hwf. apply Forall_cons in Hwf. destruct Hwf as [Hu Hrest].
    simpl in Hlen.
    destruct rest as [|u2 rest'].
    + simpl. split; [repeat constructor; lia|].
      unfold fromCodePoint.
      destruct (Z.ltb_spec u 0), (Z.ltb_spec 0x10FFFF u); try lia. simpl.
      destruct (Z.leb_spec u 0xFFFF); [reflexivity | lia].
    + pose proof Hrest as Hrest2.
      apply Forall_cons in Hrest2. destruct Hrest2 as [Hu2 Hrest'].
      simpl in Hlen.
      change (toCodePoints (u :: u2 :: rest'))
        with (if negb ((u <? 0xD800) || (0xDBFF <? u))
                 && negb ((u2 <? 0xDC00) || (0xDFFF <? u2))
              then ((u - 0xD800) * 0x400 + (u2 - 0xDC00) + 0x10000) :: toCodePoints rest'
              else u :: toCodePoints (u2 :: rest')).
      destruct (Z.ltb_spec u 0xD800), (Z.ltb_spec 0xDBFF u),
        (Z.ltb_spec u2 0xDC00), (Z.ltb_spec 0xDFFF u2); simpl negb; simpl andb; simpl orb;
        try (exfalso; lia);
        try (destruct (IH (u2 :: rest') ltac:(simpl; lia) Hrest) as [IHa IHb];
             split; [constructor; [lia | exact IHa]|];
             cbn [List.map fromCodePoints]; rewrite IHb; unfold fromCodePoint;
             destruct (Z.ltb_spec u 0), (Z.ltb_spec 0x10FFFF u); try lia; simpl;
             destruct (Z.leb_spec u 0xFFFF); [reflexivity | lia]).
      destruct (IH rest' ltac:(lia) Hrest') as [IHa IHb].
      split; [constructor; [lia | exact IHa]|].
      cbn [List.map fromCodePoints]. rewrite IHb. unfold fromCodePoint.
      set (cp := (u - 0xD800) * 0x400 + (u2 - 0xDC00) + 0x10000).
      destruct (Z.ltb_spec cp 0), (Z.ltb_spec 0x10FFFF cp); try (unfold cp in *; lia).
      simpl. destruct (Z.leb_spec cp 0xFFFF); [unfold cp in *; lia|].
      assert (Hq : (cp - 0x10000) / 0x400 = u - 0xD800).
      { unfold cp. replace ((u - 0xD800) * 0x400 + (u2 - 0xDC00) + 0x10000 - 0x10000)
          with ((u2 - 0xDC00) + (u - 0xD800) * 0x400) by lia.
        rewrite Z.div_add by lia. rewrite Z.div_small by lia. lia. }
      assert (Hr : (cp - 0x10000) mod 0x400 = u2 - 0xDC00).
      { unfold cp. replace ((u - 0xD800) * 0x400 + (u2 - 0xDC00) + 0x10000 - 0x10000)
          with ((u2 - 0xDC00) + (u - 0xD800) * 0x400) by lia.
        rewrite Z.mod_add by lia. apply Z.mod_small. lia. }
      rewrite Hq, Hr. simpl. do 3 f_equal; lia.
Qed.

Lemma utf8_encode_all_cons (c : Z) (cps : list Z) :
  utf8_encode_all (c :: cps) = utf8_encode c ++ utf8_encode_all cps.
Proof. reflexivity. Qed.

Lemma tokenUtf8_loop_encoded (tok : jsstring) (rest : bytes) (initialOffset : Z) :
  forall (cps : list Z) (pre : bytes),
    Forall (fun cp => 0 <= cp <= 0x10FFFF) cps ->
    tokenUtf8_loop cps tok (pre ++ utf8_encode_all cps ++ rest) initialOffset (strlen pre)
    = Normal (Success (strlen pre + strlen (utf8_encode_all cps)) tok).
Proof.
  induction cps as [|c cps IH]; intros pre Hr.
  - simpl. unfold okWithValue, strlen. simpl. rewrite Z.add_0_r. reflexivity.
  - apply Forall_cons in Hr. destruct Hr as [Hc Hr].
    rewrite utf8_encode_all_cons. simpl tokenUtf8_loop.
    rewrite <- (app_assoc (utf8_encode c)).
    destruct (utf8_decode_head_at c pre (utf8_encode_all cps ++ rest) Hc) as [-> Hl].
    rewrite Z.eqb_refl. simpl negb. cbv iota.
    rewrite Hl. replace (strlen pre + strlen (utf8_encode c))
      with (strlen (pre ++ utf8_encode c)) by (unfold strlen; rewrite length_app; lia).
    rewrite (app_assoc pre). rewrite IH by exact Hr.
    do 2 f_equal. unfold strlen. rewrite !length_app. lia.
Qed.

(** X18: [tokenUtf8] matches the UTF-8 encoding of its token.  For a token
    of 16-bit units, wherever the encoding of its code points stands in the
    input, [tokenUtf8] succeeds there, returns the token and reaches the
    first byte after the encoding. *)
Theorem tokenUtf8_matches_encoding (tok : jsstring) (pre rest : bytes) :
  wf_string tok ->
  tokenUtf8 tok (pre ++ utf8_encode_all (toCodePoints tok) ++ rest) (strlen pre)
  = Normal (Success (strlen pre + strlen (utf8_encode_all (toCodePoints tok))) tok).
Proof.
  intros Hwf. unfold tokenUtf8. apply tokenUtf8_loop_encoded.
  apply (toCodePoints_in_range (length tok) tok (Nat.le_refl _) Hwf).
Qed.

Lemma tokenUtf8_matches_encoding_witness :
  tokenUtf8 [0x61; 0xD83D; 0xDCA9] ([0x7a] ++ [0x61; 0xf0; 0x9f; 0x92; 0xa9] ++ [0x7a]) 1
  = Normal (Success 6 [0x61; 0xD83D; 0xDCA9]).
Proof.
  apply (tokenUtf8_matches_encoding [0x61; 0xD83D; 0xDCA9] [0x7a] [0x7a]).
  repeat constructor; lia.
Defined.

Lemma utf8_encode_length (cp : Z) : (1 <= length (utf8_encode cp))%nat.
Proof.
  unfold utf8_encode.
  destruct (cp <=? 0x7f), (cp <=? 0x7ff), (cp <=? 0xffff); simpl; lia.
Qed.

(** The iterations [recognizeUtf8] is given are enough: every iteration
    advances by one byte at least, so that more fuel changes nothing. *)
Lemma recognizeUtf8_loop_fuel (input : bytes) (resOffset : Z) :
  forall (fuel : nat) (offset : Z) (acc : list (option Z)) (extra : nat),
    (Z.to_nat (resOffset - offset) <= fuel)%nat ->
    recognizeUtf8_loop (fuel + extra) input offset resOffset acc
    = recognizeUtf8_loop fuel input offset resOffset acc.
Proof.
  induction fuel as [|fuel IH]; intros offset acc extra Hf.
  - destruct extra as [|extra]; [reflexivity|]. simpl.
    destruct (Z.ltb_spec offset resOffset); [lia|reflexivity].
  - simpl. destruct (Z.ltb_spec offset resOffset); [|reflexivity].
    destruct (getUtf8Codepoint input offset) as [[cp|]|msg]; [| |reflexivity].
    + pose proof (getUtf8Length_pos cp). apply IH. lia.
    + apply IH. lia.
Qed.

Lemma recognizeUtf8_loop_encoded (rest : bytes) :
  forall (cps : list Z) (pre : bytes) (acc : list (option Z)) (fuel : nat),
    Forall (fun cp => 0 <= cp <= 0x10FFFF) cps ->
    (length (utf8_encode_all cps) <= fuel)%nat ->
    recognizeUtf8_loop fuel (pre ++ utf8_encode_all cps ++ rest) (strlen pre)
      (strlen pre + strlen (utf8_encode_all cps)) acc
    = Normal (acc ++ List.map Some cps).
Proof.
  induction cps as [|c cps IH]; intros pre acc fuel Hr Hf.
  - simpl List.map. rewrite app_nil_r. unfold strlen at 2. simpl length.
    rewrite Z.add_0_r. destruct fuel; simpl; [reflexivity|].
    rewrite Z.ltb_irrefl. reflexivity.
  - apply Forall_cons in Hr. destruct Hr as [Hc Hr].
    rewrite utf8_encode_all_cons in *. rewrite length_app in Hf.
    pose proof (utf8_encode_length c) as Hl1.
    destruct fuel as [|fuel]; [lia|]. simpl recognizeUtf8_loop.
    destruct (Z.ltb_spec (strlen pre)
                (strlen pre + strlen (utf8_encode c ++ utf8_encode_all cps))) as [_|Hge];
      [|unfold strlen in Hge; rewrite length_app in Hge; lia].
    rewrite <- (app_assoc (utf8_encode c)).
    destruct (utf8_decode_head_at c pre (utf8_encode_all cps ++ rest) Hc) as [-> Hl].
    rewrite Hl.
    replace (strlen pre + strlen (utf8_encode c))
      with (strlen (pre ++ utf8_encode c)) by (unfold strlen; rewrite length_app; lia).
    replace (strlen pre + strlen (utf8_encode c ++ utf8_encode_all cps))
      with (strlen (pre ++ utf8_encode c) + strlen (utf8_encode_all cps))
      by (unfold strlen; rewrite !length_app; lia).
    rewrite (app_assoc pre). rewrite IH by (try exact Hr; lia).
    rewrite <- app_assoc. reflexivity.
Qed.

(** X19: [recognizeUtf8 (tokenUtf8 tok)], applied where the UTF-8 encoding
    of the token stands, returns the token itself as text: walking the bytes
    matched and decoding them gives back the code points of the token, and
    [String.fromCodePoint] rebuilds the string, surrogate pairs included. *)
Theorem recognizeUtf8_tokenUtf8 (tok : jsstring) (pre rest : bytes) :
  wf_string tok ->
  recognizeUtf8 (tokenUtf8 tok)
    (pre ++ utf8_encode_all (toCodePoints tok) ++ rest) (strlen pre)
  = Normal (Success (strlen pre + strlen (utf8_encode_all (toCodePoints tok))) tok).
Proof.
  intros Hwf.
  destruct (toCodePoints_in_range (length tok) tok (Nat.le_refl _) Hwf) as [Hr Hfrom].
  unfold recognizeUtf8, tokenUtf8.
  rewrite (tokenUtf8_loop_encoded tok rest (strlen pre) (toCodePoints tok) pre Hr).
  rewrite recognizeUtf8_loop_encoded; [|exact Hr|unfold strlen; lia].
  simpl app. rewrite Hfrom. reflexivity.
Qed.

Lemma recognizeUtf8_tokenUtf8_witness :
  recognizeUtf8 (tokenUtf8 [0x61; 0xD83D; 0xDCA9])
    ([0x7a] ++ [0x61; 0xf0; 0x9f; 0x92; 0xa9] ++ [0x7a]) 1
  = Normal (Success 6 [0x61; 0xD83D; 0xDCA9]).
Proof.
  apply (recognizeUtf8_tokenUtf8 [0x61; 0xD83D; 0xDCA9] [0x7a] [0x7a]).
  repeat constructor; lia.
Defined.





Lemma byteAt_outside (input : bytes) (offset : Z) :
  offset < 0 \/ strlen input <= offset -> byteAt input offset = None.
Proof.
  intros H. unfold byteAt. destruct (Z.ltb_spec offset 0); [reflexivity|].
  apply lookup_ge_None. unfold strlen in H. lia.
Qed.

Lemma codepointsUtf8_loop_returns (isMatch : Z -> bool) (input : bytes) :
  isMatch 0 = false ->
  forall fuel offset,
    (Z.to_nat (strlen input - offset) < fuel)%nat ->
    exists r, codepointsUtf8_loop fuel isMatch input offset = Some r /\
              match r with Normal o => offset <= o | Throw _ => True end.
Proof.
  intros H0. induction fuel as [|fuel IH]; intros offset Hf; [lia|].
  simpl. destruct (getUtf8Codepoint input offset) as [[cp|]|msg] eqn:E.
  - destruct (isMatch cp) eqn:Hm; simpl; [|eexists; split; [reflexivity|simpl; lia]].
    assert (Hin : 0 <= offset < strlen input).
    { destruct (Z.ltb_spec offset 0) as [Hn|Hn];
        [|destruct (Z.ltb_spec offset (strlen input)) as [Hl|Hl]; [lia|]];
        rewrite getUtf8Codepoint_past_end in E
          by (apply byteAt_outside; lia);
        injection E as <-; congruence. }
    pose proof (getUtf8Length_pos cp) as Hpos.
    destruct (IH (offset + getUtf8Length cp)) as (r & -> & Hr); [lia|].
    exists r. split; [reflexivity|]. destruct r; [lia|exact I].
  - eexists; split; [reflexivity|simpl; lia].
  - eexists; split; [reflexivity|exact I].
Qed.

(** X21: [codepointsUtf8] and the end of the input.  When the predicate
    rejects the code point 0 the loop ends within
    as many iterations as bytes are left, plus one; when the predicate
    accepts 0, a loop that has reached the end of the input reads 0 there
    for ever and the parser never returns. *)
Theorem codepointsUtf8_termination (isMatch : Z -> bool)
    (expected : option (list jsstring)) (input : bytes) (offset : Z) :
  (isMatch 0 = false ->
   forall fuel, (Z.to_nat (strlen input - offset) < fuel)%nat ->
     exists r, codepointsUtf8 fuel isMatch expected input offset = Some r) /\
  (isMatch 0 = true -> strlen input <= offset ->
   forall fuel, codepointsUtf8 fuel isMatch expected input offset = None).
Proof.
  split.
  - intros H0 fuel Hf. unfold codepointsUtf8.
    destruct (codepointsUtf8_loop_returns isMatch input H0 fuel offset Hf) as (r & -> & _).
    destruct r as [o|msg]; [|eexists; reflexivity].
    destruct expected as [e|]; [destruct (o =? offset)|]; eexists; reflexivity.
  - intros H0 Hoff fuel. unfold codepointsUtf8.
    rewrite (codepointsUtf8_loop_past_end isMatch input H0 fuel offset Hoff). reflexivity.
Qed.

Lemma codepointsUtf8_termination_witness :
  (exists r, codepointsUtf8 3 (fun cp => 0x61 <=? cp) None [0x61; 0x62] 0 = Some r) /\
  codepointsUtf8 100 (fun cp => cp <? 0x80) None [0x61; 0x62] 2 = None.
Proof.
  split.
  - apply (codepointsUtf8_termination (fun cp => 0x61 <=? cp) None [0x61; 0x62] 0);
      [reflexivity | vm_compute; lia].
  - apply (codepointsUtf8_termination (fun cp => cp <? 0x80) None [0x61; 0x62] 2);
      [reflexivity | vm_compute; discriminate].
Defined.

Lemma skipCharsUtf8_loop_encoded (rest : bytes) :
  forall (cps : list Z) (pre : bytes),
    Forall (fun cp => 0 <= cp <= 0x10FFFF) cps ->
    skipCharsUtf8_loop (length cps) (pre ++ utf8_encode_all cps ++ rest) (strlen pre)
    = Normal (Success (strlen pre + strlen (utf8_encode_all cps)) tt).
Proof.
  induction cps as [|c cps IH]; intros pre Hr.
  - simpl. unfold ok, okWithValue, strlen. simpl length. rewrite Z.add_0_r. reflexivity.
  - apply Forall_cons in Hr. destruct Hr as [Hc Hr].
    rewrite utf8_encode_all_cons. simpl skipCharsUtf8_loop.
    rewrite <- (app_assoc (utf8_encode c)).
    destruct (utf8_decode_head_at c pre (utf8_encode_all cps ++ rest) Hc) as [-> Hl].
    rewrite Hl.
    replace (strlen pre + strlen (utf8_encode c))
      with (strlen (pre ++ utf8_encode c)) by (unfold strlen; rewrite length_app; lia).
    rewrite (app_assoc pre). rewrite IH by exact Hr.
    do 2 f_equal. unfold strlen. rewrite !length_app. lia.
Qed.

(** X22: [skipCharsUtf8] counts code points, not bytes.  Where the encoding
    of a list of code points stands in the input, skipping as many
    characters as the list has code points succeeds at the first byte after
    the encoding, whatever the number of bytes of each. *)
Theorem skipCharsUtf8_counts_code_points (cps : list Z) (pre rest : bytes) :
  Forall (fun cp => 0 <= cp <= 0x10FFFF) cps ->
  skipCharsUtf8 (Z.of_nat (length cps)) (pre ++ utf8_encode_all cps ++ rest) (strlen pre)
  = Normal (Success (strlen pre + strlen (utf8_encode_all cps)) tt).
Proof.
  intros Hr. unfold skipCharsUtf8. rewrite Nat2Z.id.
  apply skipCharsUtf8_loop_encoded. exact Hr.
Qed.

Lemma skipCharsUtf8_counts_code_points_witness :
  skipCharsUtf8 2 ([0x7a] ++ [0xc3; 0xa9; 0xf0; 0x9f; 0x92; 0xa9] ++ [0x7a]) 1
  = Normal (Success 7 tt).
Proof.
  apply (skipCharsUtf8_counts_code_points [0xe9; 0x1f4a9] [0x7a] [0x7a]).
  repeat constructor; lia.
Defined.

Lemma codepointsUtf8_loop_encoded (isMatch : Z -> bool) (stop : Z) (rest : bytes) :
  0 <= stop <= 0x10FFFF -> isMatch stop = false ->
  forall (cps : list Z) (pre : bytes) (fuel : nat),
    Forall (fun cp => 0 <= cp <= 0x10FFFF /\ isMatch cp = true) cps ->
    (length cps < fuel)%nat ->
    codepointsUtf8_loop fuel isMatch
      (pre ++ utf8_encode_all cps ++ utf8_encode stop ++ rest) (strlen pre)
    = Some (Normal (strlen pre + strlen (utf8_encode_all cps))).
Proof.
  intros Hs Hms. induction cps as [|c cps IH]; intros pre fuel Hr Hf.
  - destruct fuel as [|fuel]; [simpl in Hf; lia|]. simpl.
    destruct (utf8_decode_head_at stop pre rest Hs) as [-> _].
    rewrite Hms. simpl. unfold strlen. simpl length. rewrite Z.add_0_r. reflexivity.
  - apply Forall_cons in Hr. destruct Hr as [[Hc Hm] Hr].
    destruct fuel as [|fuel]; [simpl in Hf; lia|].
    rewrite utf8_encode_all_cons. simpl codepointsUtf8_loop.
    rewrite <- (app_assoc (utf8_encode c)).
    destruct (utf8_decode_head_at c pre
                (utf8_encode_all cps ++ utf8_encode stop ++ rest) Hc) as [-> Hl].
    rewrite Hm, Hl. simpl negb. cbv iota.
    replace (strlen pre + strlen (utf8_encode c))
      with (strlen (pre ++ utf8_encode c)) by (unfold strlen; rewrite length_app; lia).
    rewrite (app_assoc pre). rewrite IH by (try exact Hr; simpl in Hf; lia).
    do 2 f_equal. unfold strlen. rewrite !length_app. lia.
Qed.

(** X23: [codepointsUtf8] consumes a run of encoded code points and stops at
    the first one its predicate rejects.  Where the input holds the encoding
    of code points that all match, followed by the encoding of one that does
    not, the parser succeeds at the first byte of the latter; it fails there
    only when the run is empty and an [expected] list was given. *)
Theorem codepointsUtf8_consumes_run (isMatch : Z -> bool) (expected : option (list jsstring))
    (cps : list Z) (stop : Z) (pre rest : bytes) (fuel : nat) :
  Forall (fun cp => 0 <= cp <= 0x10FFFF /\ isMatch cp = true) cps ->
  0 <= stop <= 0x10FFFF -> isMatch stop = false ->
  (length cps < fuel)%nat ->
  codepointsUtf8 fuel isMatch expected
    (pre ++ utf8_encode_all cps ++ utf8_encode stop ++ rest) (strlen pre)
  = Some (Normal
      match cps, expected with
      | [], Some e => Failure (strlen pre) e false
      | _, _ => Success (strlen pre + strlen (utf8_encode_all cps)) tt
      end).
Proof.
  intros Hr Hs Hms Hf. unfold codepointsUtf8.
  rewrite (codepointsUtf8_loop_encoded isMatch stop rest Hs Hms cps pre fuel Hr Hf).
  destruct expected as [e|]; [|destruct cps; reflexivity].
  destruct cps as [|c cps].
  - change (utf8_encode_all []) with (@nil Z). change (strlen []) with 0.
    rewrite Z.add_0_r, Z.eqb_refl. reflexivity.
  - rewrite utf8_encode_all_cons.
    pose proof (utf8_encode_length c) as Hl.
    destruct (Z.eqb_spec (strlen pre + strlen (utf8_encode c ++ utf8_encode_all cps))
                (strlen pre)) as [E|_]; [|reflexivity].
    unfold strlen in E. rewrite length_app in E. lia.
Qed.

Lemma codepointsUtf8_consumes_run_witness :
  codepointsUtf8 3 (fun cp => 0x80 <=? cp) (Some [str "x"])
    ([0x7a] ++ utf8_encode_all [0xe9; 0x1f4a9] ++ utf8_encode 0x61 ++ []) (strlen [0x7a])
  = Some (Normal (Success (strlen [0x7a] + strlen (utf8_encode_all [0xe9; 0x1f4a9])) tt)).
Proof.
  apply (codepointsUtf8_consumes_run (fun cp => 0x80 <=? cp) (Some [str "x"])
           [0xe9; 0x1f4a9] 0x61 [0x7a] [] 3).
  - repeat constructor; lia.
  - lia.
  - reflexivity.
  - simpl; lia.
Defined.

(** X24: [dispatchUtf8] looks up the code point the decoder returns.  Where
    the encoding of a code point stands at the offset looked at, the result
    is the one of the parser the mapping holds for it, of [otherwise] when it
    holds none, or a failure with [expected] at the starting offset.  Where
    the offset looked at holds no byte, the decoder returns 0 and
    [dispatchUtf8] looks up the code point 0 in the same way: unlike
    [dispatch] it does not fail there by itself. *)
Theorem dispatchUtf8_lookup {T} (mapping : gmap Z (ParserUtf8 T))
    (otherwise : option (ParserUtf8 T)) (extraOffset : option Z)
    (expected : option (list jsstring)) (input : bytes) (offset : Z) :
  let chosen cp :=
    match mapping !! cp with
    | Some parser => parser input offset
    | None =>
        match otherwise with
        | Some other => other input offset
        | None => Normal (Failure offset (default [] expected) false)
        end
    end in
  (forall cp pre rest,
      0 <= cp <= 0x10FFFF ->
      input = pre ++ utf8_encode cp ++ rest ->
      offset + default 0 extraOffset = strlen pre ->
      dispatchUtf8 mapping otherwise extraOffset expected input offset = chosen cp) /\
  (offset + default 0 extraOffset < 0 \/ strlen input <= offset + default 0 extraOffset ->
   dispatchUtf8 mapping otherwise extraOffset expected input offset = chosen 0).
Proof.
  intros chosen. split.
  - intros cp pre rest Hcp -> Ho. unfold dispatchUtf8. rewrite Ho.
    destruct (utf8_decode_head_at cp pre rest Hcp) as [-> _].
    unfold chosen, ParserUtf8 in *. destruct (mapping !! cp); [reflexivity|].
    destruct otherwise; reflexivity.
  - intros Ho. unfold dispatchUtf8.
    rewrite getUtf8Codepoint_past_end by (apply byteAt_outside; exact Ho).
    unfold chosen, ParserUtf8 in *. destruct (mapping !! 0); [reflexivity|].
    destruct otherwise; reflexivity.
Qed.

Lemma dispatchUtf8_lookup_witness :
  dispatchUtf8 (<[0 := codepointUtf8 (fun _ => true) []]> ∅) None None None [0x61] 1
  = Normal (Success 2 tt).
Proof.
  destruct (dispatchUtf8_lookup (<[0 := codepointUtf8 (fun _ => true) []]> ∅)
              None None None [0x61] 1) as [_ H].
  rewrite H; [vm_compute; reflexivity | right; vm_compute; discriminate].
Defined.

(** X25: once built, [rangeUtf8] accepts an encoded code point exactly when
    it lies between the two bounds, both included: it then succeeds at the
    first byte after the encoding, and otherwise fails at the offset it was
    given, without being fatal, with its description. *)
Theorem rangeUtf8_accepts (firstCodePoint lastCodePoint : Z)
    (expected : option (list jsstring)) (p : ParserUtf8 unit)
    (cp : Z) (pre rest : bytes) :
  rangeUtf8 firstCodePoint lastCodePoint expected = Some p ->
  0 <= cp <= 0x10FFFF ->
  exists e,
    range_expected firstCodePoint lastCodePoint expected = Some e /\
    p (pre ++ utf8_encode cp ++ rest) (strlen pre)
    = Normal (if (firstCodePoint <=? cp) && (cp <=? lastCodePoint)
              then Success (strlen pre + strlen (utf8_encode cp)) tt
              else Failure (strlen pre) e false).
Proof.
  unfold rangeUtf8. intros H Hcp.
  destruct (range_expected firstCodePoint lastCodePoint expected) as [e|]; [|discriminate].
  injection H as <-. exists e. split; [reflexivity|].
  unfold codepointUtf8.
  destruct (utf8_decode_head_at cp pre rest Hcp) as [-> Hl].
  destruct ((firstCodePoint <=? cp) && (cp <=? lastCodePoint)); simpl; [|reflexivity].
  rewrite Hl. reflexivity.
Qed.

Lemma rangeUtf8_accepts_witness :
  exists e,
    range_expected 0x80 0x7ff None = Some e /\
    codepointUtf8 (fun cp => (0x80 <=? cp) && (cp <=? 0x7ff)) [[0x80; 45; 0x7ff]]
      ([0x7a] ++ utf8_encode 0xe9 ++ [0x7a]) (strlen [0x7a])
    = Normal (if (0x80 <=? 0xe9) && (0xe9 <=? 0x7ff)
              then Success (strlen [0x7a] + strlen (utf8_encode 0xe9)) tt
              else Failure (strlen [0x7a]) e false).
Proof.
  apply (rangeUtf8_accepts 0x80 0x7ff None
           (codepointUtf8 (fun cp => (0x80 <=? cp) && (cp <=? 0x7ff)) [[0x80; 45; 0x7ff]])
           0xe9 [0x7a] [0x7a]); [reflexivity | lia].
Defined.

(** * Further properties of the streaming operators *)

Lemma streamingStar_loop_failure {T} (p : StreamingParser T) (input : jsstring) :
  forall fuel offset out s vs o e fa s',
    streamingStar_loop fuel p input offset out s = Some ((vs, Failure o e fa), s') ->
    fa = true /\
    exists vs0 off s0, p input off s0 = Some ((vs0, Failure o e true), s').
Proof.
  induction fuel as [|fuel IH]; intros offset out s vs o e fa s' H; simpl in H;
    [discriminate|].
  apply bind_Some in H. destruct H as ([vs1 r] & s1 & Hp & H). simpl in H.
  destruct r as [o1 v1|o1 e1 fa1].
  - destruct (offset =? o1); [|eapply IH; eassumption].
    apply ret_Some in H. destruct H as [H _]. discriminate H.
  - destruct fa1; apply ret_Some in H; destruct H as [H ->]; [|discriminate H].
    injection H as _ -> -> <-. split; [reflexivity|]. eauto.
Qed.

(** X26: [streamingOptional] and [streamingStar] never fail on their own: a
    failure they return is fatal and is a fatal failure their operand
    returned.  [streamingOptional] yields nothing in that case, also when its
    operand had yielded values before it failed. *)
Theorem streaming_repetitions_fail_only_fatally {T} (p : StreamingParser T)
    (fuel : nat) (input : jsstring) (offset : Z) (s s' : store) (vs : list T)
    (o : Z) (e : list jsstring) (fa : bool) :
  (streamingOptional p input offset s = Some ((vs, Failure o e fa), s') ->
   fa = true /\ vs = [] /\
   exists vs0, p input offset s = Some ((vs0, Failure o e true), s')) /\
  (streamingStar fuel p input offset s = Some ((vs, Failure o e fa), s') ->
   fa = true /\
   exists vs0 off s0, p input off s0 = Some ((vs0, Failure o e true), s')).
Proof.
  split.
  - unfold streamingOptional. intros H.
    apply bind_Some in H. destruct H as ([vs1 r] & s1 & Hp & H). simpl in H.
    destruct r as [o1 v1|o1 e1 fa1].
    + apply ret_Some in H. destruct H as [H _]. discriminate H.
    + destruct fa1; apply ret_Some in H; destruct H as [H ->]; [|discriminate H].
      injection H as <- -> -> <-. repeat split. eauto.
  - unfold streamingStar. apply streamingStar_loop_failure.
Qed.

Lemma streaming_repetitions_fail_only_fatally_witness :
  true = true /\ @nil jsstring = [] /\
  exists vs0,
    streamingThen (streaming (token (str "a"))) (streaming (cut (token (str "b"))))
      (str "ac") 0 ∅
    = Some ((vs0, Failure 1 [str "b"] true), ∅).
Proof.
  destruct (streaming_repetitions_fail_only_fatally
              (streamingThen (streaming (token (str "a"))) (streaming (cut (token (str "b")))))
              1 (str "ac") 0 ∅ ∅ [] 1 [str "b"] true) as [H _].
  apply H. vm_compute. reflexivity.
Defined.

(** X27: [streamingThen] is associative: nesting it to the left or to the
    right gives the same yielded values, the same result and the same store
    on every input and offset. *)
Theorem streamingThen_assoc {T} (a b c : StreamingParser T)
    (input : jsstring) (offset : Z) (s : store) :
  streamingThen (streamingThen a b) c input offset s
  = streamingThen a (streamingThen b c) input offset s.
Proof.
  unfold streamingThen, bind.
  destruct (a input offset s) as [[[vs1 r1] s1]|]; [|reflexivity]. simpl.
  destruct r1 as [o1 v1|o1 e1 fa1]; [|reflexivity]. simpl.
  destruct (b input o1 s1) as [[[vs2 r2] s2]|]; [|reflexivity]. simpl.
  destruct r2 as [o2 v2|o2 e2 fa2]; simpl; [|reflexivity].
  destruct (c input o2 s2) as [[[vs3 r3] s3]|]; [|reflexivity]. simpl.
  unfold ret. rewrite app_assoc. reflexivity.
Qed.
